(** * gsession: session storage on Redis with batched TTL renewal

    A shallow embedding of [os/gsession/gsession_storage_redis.go] and
    [os/gsession/gsession_storage_memory.go].

    - [float64]: the binary64 arithmetic behind [time.Duration.Seconds].
    - [json]: the encoding of session maps ([json.Marshal],
      [json.UnmarshalUseNumber]).
    - the storage itself: [StorageRedis], its operations, the timer callback
      that flushes the pending TTL renewals, and [StorageMemory].

    The [context.Context] argument of every method is only passed through and
    is left out, as are the debug lines of [intlog.Print]/[intlog.Printf];
    [intlog.Errorf] is kept because the flusher reports failures through it. *)

From Stdlib Require Import ZArith Lia Ascii String Decimal DecimalString DecimalN.
From Stdlib Require Import Uint63 PrimFloat SpecFloat FloatOps.
From stdpp Require Import gmap strings list fin_maps.
Set Warnings "-register-all".

Local Open Scope Z_scope.

(* ===================================================================== *)
(** ** binary64 floating point                                            *)
(* ===================================================================== *)

(** Every finite binary64 number is an integer multiple of [2^-1074].  A
    float [x] is represented by the integer [x * 2^1074]; an operation
    computes the exact rational result and rounds it to the nearest number
    with a 53-bit significand, ties to even.  Overflow to infinity, NaN and
    signed zeros are out of reach of the values a [time.Duration] produces
    and are not represented. *)
Module float64.

Definition scale : Z := 2 ^ 1074.

(** [rne n d]: the integer nearest to [n / d], ties to even ([0 < d]). *)
Definition rne (n d : Z) : Z :=
  let q := n / d in
  let r := n mod d in
  if 2 * r <? d then q
  else if d <? 2 * r then q + 1
  else if Z.even q then q else q + 1.

(** [round_pos n d]: the float nearest to [n / d] units of [2^-1074], for
    [0 <= n]; [u] is the unit in the last place of the binade of [n / d]. *)
Definition round_pos (n d : Z) : Z :=
  let u := 2 ^ Z.max 0 (Z.log2 (n / d) - 52) in
  u * rne n (d * u).

Definition round (n d : Z) : Z := Z.sgn n * round_pos (Z.abs n) d.

(** [float64(z)] *)
Definition of_int (z : Z) : Z := round (z * scale) 1.

(** [a + b] *)
Definition add (a b : Z) : Z := round (a + b) 1.

(** [a / b], for [b <> 0] *)
Definition div (a b : Z) : Z := round (Z.sgn b * a * scale) (Z.abs b).

(** [int64(a)], [int(a)]: conversion to integer truncates towards zero. *)
Definition to_int64 (a : Z) : Z := a ÷ scale.

(** The same numbers in the kernel's primitive binary64 floats, to compare
    the model against. *)
Definition of_prim (f : float) : option Z :=
  match Prim2SF f with
  | S754_zero _ => Some 0
  | S754_finite s m e => Some ((if s then -1 else 1) * (Z.pos m * 2 ^ (e + 1074)))
  | _ => None
  end.

Definition prim_of_int (z : Z) : float :=
  if z <? 0 then PrimFloat.opp (PrimFloat.of_uint63 (Uint63.of_Z (- z)))
  else PrimFloat.of_uint63 (Uint63.of_Z z).

End float64.

(* ===================================================================== *)
(** ** time.Duration                                                      *)
(* ===================================================================== *)

(** [time.Duration] is an [int64] count of nanoseconds. *)
Abbreviation Duration := Z.

Definition Second : Duration := 1000000000.

(** [func (d Duration) Seconds() float64]:
    [sec := d / Second; nsec := d % Second;
     return float64(sec) + float64(nsec)/1e9].
    Go's integer [/] and [%] truncate towards zero. *)
Definition Seconds (d : Duration) : Z :=
  let sec := d ÷ Second in
  let nsec := Z.rem d Second in
  float64.add (float64.of_int sec)
    (float64.div (float64.of_int nsec) (float64.of_int 1000000000)).

(** [int64(ttl.Seconds())] in SetSession and [int(ttl.Seconds())] in
    UpdateTTL ([int] is 64 bits wide). *)
Definition ttlSeconds (ttl : Duration) : Z := float64.to_int64 (Seconds ttl).

(** [Seconds] computed with primitive floats. *)
Definition primSeconds (d : Duration) : float :=
  PrimFloat.add (float64.prim_of_int (d ÷ Second))
    (PrimFloat.div (float64.prim_of_int (Z.rem d Second)) (float64.prim_of_int 1000000000)).

(** The largest value [float64(nsec)/1e9] takes: the one of
    [nsec = 999999999]. *)
Definition frac_max : Z :=
  float64.round_pos (999999999 * float64.scale * float64.scale) (1000000000 * float64.scale).

(** [DefaultStorageRedisLoopInterval = 10 * time.Second] *)
Definition DefaultStorageRedisLoopInterval : Duration := 10 * Second.

(* ===================================================================== *)
(** ** Session values and their JSON encoding                             *)
(* ===================================================================== *)

(** Modelled from the spec: the packages [internal/json] (over Go's
    [encoding/json]) and [container/gmap] are not among the sources.  The
    spec asks for a session map from string keys to dynamically typed values,
    "a tagged-union value type (string/number/bool/null/nested-map/
    nested-list)", encoded as an object with "field names preserved, numeric
    values preserved without precision loss" and decoded with "a
    decimal/number-preserving decode".  A number is kept as the decimal
    literal it is written with (sign, integer part, fraction digits,
    exponent), as [json.Number] does, never as a float.

    [print] is the compact encoding; [parse_value] is a recursive-descent
    decoder of the JSON grammar (white space, the escapes of strings, numbers
    with fraction and exponent), with fuel for the nesting.  An object
    decoded into a map keeps the last value of a repeated key.  A [\u]
    escape decodes to the UTF-8 bytes of its code unit. *)
Local Open Scope string_scope.

Module json.

(** A number, as the decimal literal it is written with:
    [-]integer[.fraction][e exponent].  The integer part has no leading
    zeros, the fraction keeps every digit it has ([Nil]: no fraction). *)
Record Number := mkNumber {
  negative : bool;
  integer : N;
  fraction : Decimal.uint;
  exponent : option Z
}.

(** A dynamically typed session value ([interface{}] in Go). *)
Inductive Value :=
| VNull
| VBool (b : bool)
| VNumber (n : Number)
| VString (s : string)
| VList (l : list Value)
| VMap (m : gmap string Value).

Definition quote : ascii := "034"%char.
Definition backslash : ascii := "\"%char.

Definition hex_char (n : N) : ascii :=
  match n with
  | 0 => "0" | 1 => "1" | 2 => "2" | 3 => "3" | 4 => "4"
  | 5 => "5" | 6 => "6" | 7 => "7" | 8 => "8" | 9 => "9"
  | 10 => "a" | 11 => "b" | 12 => "c" | 13 => "d" | 14 => "e"
  | _ => "f"
  end%N%char.

Definition hex_value (c : ascii) : option N :=
  let n := N_of_ascii c in
  if (48 <=? n)%N && (n <=? 57)%N then Some (n - 48)%N
  else if (97 <=? n)%N && (n <=? 102)%N then Some (n - 87)%N
  else if (65 <=? n)%N && (n <=? 70)%N then Some (n - 55)%N
  else None.

Definition is_control (c : ascii) : bool := (N_of_ascii c <? 32)%N.

(** Encoding.  In a string, the quote, the backslash and the control
    characters are escaped; every other byte is written as it is. *)
Definition escape_char (c : ascii) : string :=
  if Ascii.eqb c quote then String backslash (String quote "")
  else if Ascii.eqb c backslash then String backslash (String backslash "")
  else if is_control c then
    String backslash (String "u" (String "0" (String "0"
      (String (hex_char (N_of_ascii c / 16)) (String (hex_char (N_of_ascii c mod 16)) "")))))
  else String c "".

Fixpoint escape (s : string) : string :=
  match s with
  | "" => ""
  | String c s' => escape_char c +:+ escape s'
  end.

Definition print_string (s : string) : string :=
  String quote (escape s +:+ String quote "").

Definition print_int (z : Z) : string :=
  (if (z <? 0)%Z then "-" else "") +:+ NilEmpty.string_of_uint (N.to_uint (Z.abs_N z)).

Definition fraction_string (f : Decimal.uint) : string :=
  match f with
  | Nil => ""
  | _ => "." +:+ NilEmpty.string_of_uint f
  end.

Definition exponent_string (e : option Z) : string :=
  match e with
  | None => ""
  | Some z => "e" +:+ print_int z
  end.

Definition print_number (n : Number) : string :=
  (if negative n then "-" else "")
  +:+ NilEmpty.string_of_uint (N.to_uint (integer n))
  +:+ fraction_string (fraction n)
  +:+ exponent_string (exponent n).

Fixpoint join (l : list string) : string :=
  match l with
  | [] => ""
  | [x] => x
  | x :: l' => x +:+ "," +:+ join l'
  end.

Definition print_member (k : string) (v : string) : string :=
  print_string k +:+ ":" +:+ v.

(** Modelled from the spec: the encoder behind [json.Marshal].  The
    compact text of a value; the members of an object come in the order
    [map_fold] visits the map, and the order is lost again when the text is
    decoded into a map. *)
Fixpoint print (v : Value) : string :=
  match v with
  | VNull => "null"
  | VBool true => "true"
  | VBool false => "false"
  | VNumber n => print_number n
  | VString s => print_string s
  | VList l => "[" +:+ join (print <$> l) +:+ "]"
  | VMap m =>
      "{" +:+ join (map_fold (λ k x acc, print_member k (print x) :: acc) [] m) +:+ "}"
  end.

(** Decoding.  White space is skipped before every token. *)
Definition is_space (c : ascii) : bool :=
  match N_of_ascii c with
  | 32 | 9 | 10 | 13 => true
  | _ => false
  end%N.

Fixpoint skip_space (s : string) : string :=
  match s with
  | String c s' => if is_space c then skip_space s' else s
  | "" => ""
  end.

Definition digit_of_char (c : ascii) : option (Decimal.uint → Decimal.uint) :=
  match c with
  | "0" => Some D0 | "1" => Some D1 | "2" => Some D2 | "3" => Some D3
  | "4" => Some D4 | "5" => Some D5 | "6" => Some D6 | "7" => Some D7
  | "8" => Some D8 | "9" => Some D9
  | _ => None
  end%char.

(** The longest prefix of digits, and what follows it. *)
Fixpoint scan_digits (s : string) : Decimal.uint * string :=
  match s with
  | String c s' =>
      match digit_of_char c with
      | Some d => let '(u, rest) := scan_digits s' in (d u, rest)
      | None => (Nil, s)
      end
  | "" => (Nil, "")
  end.

(** The integer part of a number: [0], or digits that do not start
    with [0]. *)
Definition scan_integer (s : string) : option (N * string) :=
  match scan_digits s with
  | (Nil, _) => None
  | (D0 Nil, rest) => Some (0%N, rest)
  | (D0 _, _) => None
  | (u, rest) => Some (N.of_uint u, rest)
  end.

Definition scan_fraction (s : string) : option (Decimal.uint * string) :=
  match s with
  | String c s' =>
      if Ascii.eqb c "." then
        match scan_digits s' with
        | (Nil, _) => None
        | (f, rest) => Some (f, rest)
        end
      else Some (Nil, s)
  | "" => Some (Nil, s)
  end.

Definition scan_exponent_digits (neg : bool) (s : string) : option (option Z * string) :=
  match scan_digits s with
  | (Nil, _) => None
  | (u, rest) =>
      let z := Z.of_N (N.of_uint u) in
      Some (Some (if neg then (- z)%Z else z), rest)
  end.

Definition scan_exponent (s : string) : option (option Z * string) :=
  match s with
  | String c s' =>
      if Ascii.eqb c "e" || Ascii.eqb c "E" then
        match s' with
        | String d s'' =>
            if Ascii.eqb d "-" then scan_exponent_digits true s''
            else if Ascii.eqb d "+" then scan_exponent_digits false s''
            else scan_exponent_digits false s'
        | "" => None
        end
      else Some (None, s)
  | "" => Some (None, s)
  end.

Definition parse_number (s : string) : option (Number * string) :=
  let '(neg, s1) := match s with
                    | String c s' => if Ascii.eqb c "-" then (true, s') else (false, s)
                    | "" => (false, s)
                    end in
  '(i, s2) ← scan_integer s1;
  '(f, s3) ← scan_fraction s2;
  '(e, s4) ← scan_exponent s3;
  Some (mkNumber neg i f e, s4).

(** The UTF-8 bytes of a 16-bit code unit. *)
Definition utf8 (n : N) : string :=
  (if n <? 128 then String (ascii_of_N n) ""
   else if n <? 2048 then
     String (ascii_of_N (192 + n / 64)) (String (ascii_of_N (128 + n mod 64)) "")
   else
     String (ascii_of_N (224 + n / 4096))
       (String (ascii_of_N (128 + (n / 64) mod 64))
          (String (ascii_of_N (128 + n mod 64)) "")))%N.

Definition hex4 (a b c d : ascii) : option N :=
  x ← hex_value a; y ← hex_value b; z ← hex_value c; w ← hex_value d;
  Some (((x * 16 + y) * 16 + z) * 16 + w)%N.

Definition simple_escape (c : ascii) : option ascii :=
  if Ascii.eqb c quote then Some quote
  else if Ascii.eqb c backslash then Some backslash
  else match c with
       | "/" => Some "/"
       | "b" => Some "008"
       | "f" => Some "012"
       | "n" => Some "010"
       | "r" => Some "013"
       | "t" => Some "009"
       | _ => None
       end%char.

(** A string, from after its opening quote to its closing quote. *)
Fixpoint parse_string_body (s : string) : option (string * string) :=
  match s with
  | "" => None
  | String c s' =>
      if Ascii.eqb c quote then Some ("", s')
      else if Ascii.eqb c backslash then
        match s' with
        | String e s'' =>
            if Ascii.eqb e "u" then
              match s'' with
              | String h1 (String h2 (String h3 (String h4 s5))) =>
                  n ← hex4 h1 h2 h3 h4;
                  '(x, rest) ← parse_string_body s5;
                  Some (utf8 n +:+ x, rest)
              | _ => None
              end
            else
              a ← simple_escape e;
              '(x, rest) ← parse_string_body s'';
              Some (String a x, rest)
        | "" => None
        end
      else if is_control c then None
      else
        '(x, rest) ← parse_string_body s';
        Some (String c x, rest)
  end.

(** [strip_prefix lit s]: [s] without its prefix [lit], if it has it. *)
Fixpoint strip_prefix (lit s : string) : option string :=
  match lit with
  | "" => Some s
  | String a lit' =>
      match s with
      | String b s' => if Ascii.eqb a b then strip_prefix lit' s' else None
      | "" => None
      end
  end.

Definition expect (lit : string) (v : Value) (s : string) : option (Value * string) :=
  rest ← strip_prefix lit s; Some (v, rest).

(** [m[k] = v], member after member: the last value of a key stays. *)
Definition insert_member (m : gmap string Value) (kv : string * Value) : gmap string Value :=
  <[kv.1 := kv.2]> m.

(** Modelled from the spec: the decoder behind
    [json.UnmarshalUseNumber].  A value, the elements of a list after its
    bracket, the members of an object after its brace; each returns what it
    read and the rest of the text.  A number is read by [parse_number] as it
    is written, never through a float. *)
Fixpoint parse_value (fuel : nat) (s : string) : option (Value * string) :=
  match fuel with
  | O => None
  | S fuel =>
      match skip_space s with
      | "" => None
      | String c s' =>
          if Ascii.eqb c "n" then expect "ull" VNull s'
          else if Ascii.eqb c "t" then expect "rue" (VBool true) s'
          else if Ascii.eqb c "f" then expect "alse" (VBool false) s'
          else if Ascii.eqb c quote then
            '(x, rest) ← parse_string_body s'; Some (VString x, rest)
          else if Ascii.eqb c "[" then
            match skip_space s' with
            | "" => None
            | String c1 rest1 =>
                if Ascii.eqb c1 "]" then Some (VList [], rest1)
                else '(l, rest) ← parse_elements fuel (String c1 rest1); Some (VList l, rest)
            end
          else if Ascii.eqb c "{" then
            match skip_space s' with
            | "" => None
            | String c1 rest1 =>
                if Ascii.eqb c1 "}" then Some (VMap ∅, rest1)
                else
                  '(l, rest) ← parse_members fuel (String c1 rest1);
                  Some (VMap (foldl insert_member ∅ l), rest)
            end
          else
            '(n, rest) ← parse_number (String c s'); Some (VNumber n, rest)
      end
  end
with parse_elements (fuel : nat) (s : string) : option (list Value * string) :=
  match fuel with
  | O => None
  | S fuel =>
      '(v, s1) ← parse_value fuel s;
      match skip_space s1 with
      | "" => None
      | String c s2 =>
          if Ascii.eqb c "," then '(l, rest) ← parse_elements fuel s2; Some (v :: l, rest)
          else if Ascii.eqb c "]" then Some ([v], s2)
          else None
      end
  end
with parse_members (fuel : nat) (s : string) : option (list (string * Value) * string) :=
  match fuel with
  | O => None
  | S fuel =>
      match skip_space s with
      | "" => None
      | String c s0 =>
          if Ascii.eqb c quote then
            '(k, s1) ← parse_string_body s0;
            match skip_space s1 with
            | "" => None
            | String c1 s2 =>
                if Ascii.eqb c1 ":" then
                  '(v, s3) ← parse_value fuel s2;
                  match skip_space s3 with
                  | "" => None
                  | String c2 s4 =>
                      if Ascii.eqb c2 "," then
                        '(l, rest) ← parse_members fuel s4; Some ((k, v) :: l, rest)
                      else if Ascii.eqb c2 "}" then Some ([(k, v)], s4)
                      else None
                  end
                else None
            end
          else None
      end
  end.

(** The sizes the proofs recurse on. *)
Fixpoint vsize (v : Value) : nat :=
  match v with
  | VList l => S (foldr (λ x n, vsize x + n)%nat 0%nat l)
  | VMap m => S (map_fold (λ _ x n, vsize x + n)%nat 0%nat m)
  | _ => 1%nat
  end.

(** [closing s]: [s] is empty or starts with what may follow a value
    inside a list or an object. *)
Definition closing (s : string) : bool :=
  match s with
  | "" => true
  | String c _ => Ascii.eqb c "," || Ascii.eqb c "]" || Ascii.eqb c "}"
  end.

(** The text of one member of an object. *)
Definition member_string (kx : string * Value) : string :=
  print_member kx.1 (print kx.2).

(** What a printed value starts with: no white space, no closing bracket. *)
Definition value_head (c : ascii) : Prop :=
  is_space c = false ∧ Ascii.eqb c "]" = false ∧ Ascii.eqb c "}" = false.

(** [parses x]: decoding the text of [x] gives [x] back and stops where
    the text ends, whatever closes it, once the fuel exceeds its length. *)
Definition parses (x : Value) : Prop :=
  ∀ rest fuel, closing rest = true → (String.length (print x) < fuel)%nat →
    parse_value fuel (print x +:+ rest) = Some (x, rest).

End json.

Local Close Scope string_scope.

(* ===================================================================== *)
(** ** Errors, the Redis client, the process state                        *)
(* ===================================================================== *)

(** A non-nil Go [error].  [ErrorDisabled] is the package's sentinel (it is
    declared in [gsession.go], outside the sources at hand); the other two are
    what a [redis.Do] and a JSON call can return.  A nil [error] is [None]. *)
Inductive error :=
| ErrorDisabled
| RedisError (msg : string)
| JsonError (msg : string).

#[global] Instance error_eq_dec : EqDecision error.
Proof. solve_decision. Defined.

(** An argument of [redis.Do(ctx, command, args...)]. *)
Inductive arg :=
| ArgString (s : string)
| ArgInt (n : Z)
| ArgBytes (b : string).

#[global] Instance arg_eq_dec : EqDecision arg.
Proof. solve_decision. Defined.

(** The [*gvar.Var] a command answers with: a nil value or bytes. *)
Abbreviation reply := (option string).

(** [r.Bytes()] *)
Definition Bytes (r : reply) : string := default EmptyString r.

(** [*gredis.Redis]: a client of the external store.  A value of [R] is the
    client together with the state of the store it talks to; [Do] returns
    the state after the command, the reply and the error. *)
Class RedisClient (R : Type) := Do : R → string → list arg → R * reply * option error.

(** A [*gmap.StrAnyMap] is a pointer to a map object. *)
Abbreviation loc := positive.

(** What the storage shares with the rest of the process: the
    [gmap.StrAnyMap] objects, the commands issued through [redis.Do] so far
    (oldest first) and the lines written with [intlog.Errorf]. *)
Record World := mkWorld {
  heap : gmap loc (gmap string json.Value);
  sent : list (string * list arg);
  intlog : list error
}.

(** [gmap.NewStrAnyMapFrom(m, true)]: a new map object holding [m]. *)
Definition NewStrAnyMapFrom (w : World) (m : gmap string json.Value) : World * loc :=
  let l := fresh (dom (heap w)) in
  (mkWorld (<[l := m]> (heap w)) (sent w) (intlog w), l).

(** [data.Replace(m)]: the object at [l] now holds [m]. *)
Definition Replace (w : World) (l : loc) (m : gmap string json.Value) : World :=
  mkWorld (<[l := m]> (heap w)) (sent w) (intlog w).

(** [intlog.Errorf(ctx, `%+v`, err)] *)
Definition intlog_Errorf (w : World) (e : error) : World :=
  mkWorld (heap w) (sent w) (intlog w ++ [e]).

(** Modelled from the spec: [json.Marshal(data)] for
    [data *gmap.StrAnyMap] (package [internal/json] is not among the
    sources).  A nil pointer encodes as [null], a map as an object "with
    field names preserved"; every value of the model has an encoding. *)
Definition Marshal (data : option (gmap string json.Value)) : string * option error :=
  match data with
  | None => ("null"%string, None)
  | Some m => (json.print (json.VMap m), None)
  end.

(** Modelled from the spec:
    [var m map[string]interface{}; err = json.UnmarshalUseNumber(content, &m)]
    (package [internal/json] is not among the sources), "a
    decimal/number-preserving decode".  The result is the pair [(m, err)]
    afterwards: [null] leaves [m] nil without an error; a JSON value that is
    not an object cannot be stored in a map. *)
Definition UnmarshalUseNumber (content : string)
  : option (gmap string json.Value) * option error :=
  match json.parse_value (S (String.length content)) content with
  | Some (v, rest) =>
      match json.skip_space rest with
      | EmptyString =>
          match v with
          | json.VMap m => (Some m, None)
          | json.VNull => (None, None)
          | _ => (None, Some (JsonError "json: cannot unmarshal value into Go value of type map[string]interface {}"))
          end
      | _ => (None, Some (JsonError "invalid character after top-level value"))
      end
  | None => (None, Some (JsonError "invalid JSON input"))
  end.

(** Modelled from the spec: [gmap.StrIntMap] (package [container/gmap]) is
    not among the sources.  The Pending-Renewal Set is "a mapping from session
    identifier to integer TTL-seconds"; [Set] is its [put]: "insert-or-
    overwrite". *)
Definition StrIntMap_Set (m : gmap string Z) (key : string) (val : Z) : gmap string Z :=
  <[key := val]> m.

(** Modelled from the spec: [Pop] is [drainOne]: it "atomically removes and
    returns one arbitrary entry, or signals emptiness", and the "order of
    drain is unspecified".  [Pop] returns a [(string, int)] pair, so an empty
    map is signalled by the zero values.  [choice] stands for the iteration
    order of the Go map: it selects which entry is handed out. *)
Definition Pop (choice : nat) (m : gmap string Z) : string * Z * gmap string Z :=
  match map_to_list m !! (choice `mod` size m)%nat with
  | Some (k, v) => (k, v, delete k m)
  | None => (EmptyString, 0, m)
  end.

(* ===================================================================== *)
(** ** StorageRedis                                                       *)
(* ===================================================================== *)

Section Storage.
Context {R : Type} `{!RedisClient R}.

(** [type StorageRedis struct { redis; prefix; updatingIdMap }] *)
Record StorageRedis := mkStorageRedis {
  redis : R;
  prefix : string;
  updatingIdMap : gmap string Z
}.

(** [s.redis.Do(ctx, command, args...)], recording the command. *)
Definition redis_Do (s : StorageRedis) (w : World) (command : string) (args : list arg)
  : StorageRedis * World * reply * option error :=
  let '(r', v, err) := Do (redis s) command args in
  (mkStorageRedis r' (prefix s) (updatingIdMap s),
   mkWorld (heap w) (sent w ++ [(command, args)]) (intlog w),
   v, err).

(** [func (s *StorageRedis) sessionIdToRedisKey(sessionId string) string] *)
Definition sessionIdToRedisKey (s : StorageRedis) (sessionId : string) : string :=
  (prefix s +:+ sessionId)%string.

(** [func NewStorageRedis(redis *gredis.Redis, prefix ...string) *StorageRedis];
    [None] is the panic on a nil client.  The closure handed to
    [gtimer.AddSingleton] is [timer_callback] below. *)
Definition NewStorageRedis (redis : option R) (prefix : list string) : option StorageRedis :=
  match redis with
  | None => None
  | Some r =>
      Some (mkStorageRedis r
              match prefix with
              | p :: _ => if decide (p = EmptyString) then EmptyString else p
              | [] => EmptyString
              end
              ∅)
  end.

(** The operations this storage does not offer. *)
Definition StorageRedis_New (s : StorageRedis) (ttl : Duration) : string * option error :=
  (EmptyString, Some ErrorDisabled).

Definition StorageRedis_Get (s : StorageRedis) (sessionId key : string)
  : option json.Value * option error :=
  (None, Some ErrorDisabled).

Definition StorageRedis_Data (s : StorageRedis) (sessionId : string)
  : option (gmap string json.Value) * option error :=
  (None, Some ErrorDisabled).

Definition StorageRedis_GetSize (s : StorageRedis) (sessionId : string) : Z * option error :=
  (-1, Some ErrorDisabled).

Definition StorageRedis_Set (s : StorageRedis) (sessionId key : string)
    (value : option json.Value) (ttl : Duration) : option error :=
  Some ErrorDisabled.

Definition StorageRedis_SetMap (s : StorageRedis) (sessionId : string)
    (data : option (gmap string json.Value)) (ttl : Duration) : option error :=
  Some ErrorDisabled.

Definition StorageRedis_Remove (s : StorageRedis) (sessionId key : string) : option error :=
  Some ErrorDisabled.

(** [func (s *StorageRedis) RemoveAll(ctx, sessionId string) error] *)
Definition RemoveAll (s : StorageRedis) (w : World) (sessionId : string)
  : StorageRedis * World * option error :=
  let '(s, w, _, err) := redis_Do s w "DEL" [ArgString (sessionIdToRedisKey s sessionId)] in
  (s, w, err).

(** [func (s *StorageRedis) GetSession(ctx, sessionId string, ttl time.Duration,
    data) returning a map pointer and an error] *)
Definition GetSession (s : StorageRedis) (w : World) (sessionId : string)
    (ttl : Duration) (data : option loc)
  : StorageRedis * World * (option loc * option error) :=
  let '(s, w, r, err) := redis_Do s w "GET" [ArgString (sessionIdToRedisKey s sessionId)] in
  match err with
  | Some e => (s, w, (None, Some e))
  | None =>
      let content := Bytes r in
      if decide (String.length content = 0%nat) then (s, w, (None, None))
      else
        let '(m, err) := UnmarshalUseNumber content in
        match err with
        | Some e => (s, w, (None, Some e))
        | None =>
            match m with
            | None => (s, w, (None, None))
            | Some m =>
                match data with
                | None =>
                    let '(w, l) := NewStrAnyMapFrom w m in
                    (s, w, (Some l, None))
                | Some l => (s, Replace w l m, (Some l, None))
                end
            end
        end
  end.

(** [func (s *StorageRedis) SetSession(ctx, sessionId string,
    data *gmap.StrAnyMap, ttl time.Duration) error].  The method only reads
    the map, so [data] is the map the pointer leads to ([None]: nil). *)
Definition SetSession (s : StorageRedis) (w : World) (sessionId : string)
    (data : option (gmap string json.Value)) (ttl : Duration)
  : StorageRedis * World * option error :=
  let '(content, err) := Marshal data in
  match err with
  | Some e => (s, w, Some e)
  | None =>
      let '(s, w, _, err) :=
        redis_Do s w "SETEX"
          [ArgString (sessionIdToRedisKey s sessionId); ArgInt (ttlSeconds ttl); ArgBytes content] in
      (s, w, err)
  end.

(** [func (s *StorageRedis) UpdateTTL(ctx, sessionId string, ttl time.Duration) error] *)
Definition UpdateTTL (s : StorageRedis) (sessionId : string) (ttl : Duration)
  : StorageRedis * option error :=
  if decide (DefaultStorageRedisLoopInterval <= ttl) then
    (mkStorageRedis (redis s) (prefix s)
       (StrIntMap_Set (updatingIdMap s) sessionId (ttlSeconds ttl)), None)
  else (s, None).

(** [func (s *StorageRedis) doUpdateTTL(ctx, sessionId string, ttlSeconds int) error] *)
Definition doUpdateTTL (s : StorageRedis) (w : World) (sessionId : string) (ttlSeconds : Z)
  : StorageRedis * World * option error :=
  let '(s, w, _, err) :=
    redis_Do s w "EXPIRE" [ArgString (sessionIdToRedisKey s sessionId); ArgInt ttlSeconds] in
  (s, w, err).

(** The [for] loop of the closure registered in [NewStorageRedis]:
    [Pop]; leave on an empty session id; else [doUpdateTTL] and log a
    failure.  [choices] gives the entry each [Pop] hands out (0 once the list
    is used up); [fuel] bounds the iterations. *)
Fixpoint timer_loop (fuel : nat) (choices : list nat) (s : StorageRedis) (w : World)
  : option (StorageRedis * World) :=
  match fuel with
  | O => None
  | S fuel =>
      let '(sessionId, ttlSeconds, m) := Pop (hd 0%nat choices) (updatingIdMap s) in
      let s := mkStorageRedis (redis s) (prefix s) m in
      if decide (sessionId = EmptyString) then Some (s, w)
      else
        let '(s, w, err) := doUpdateTTL s w sessionId ttlSeconds in
        let w := match err with
                 | Some e => intlog_Errorf w e
                 | None => w
                 end in
        timer_loop fuel (tl choices) s w
  end.

(** One run of the timer callback.  Every iteration but the last removes
    an entry, so one more iteration than there are entries is enough. *)
Definition timer_callback (choices : list nat) (s : StorageRedis) (w : World)
  : option (StorageRedis * World) :=
  timer_loop (S (size (updatingIdMap s))) choices s w.

(** The [EXPIRE] command [doUpdateTTL] issues for a queued entry. *)
Definition expire_command (s : StorageRedis) (entry : string * Z) : string * list arg :=
  ("EXPIRE"%string, [ArgString (sessionIdToRedisKey s entry.1); ArgInt entry.2]).

(** Issue the commands in order on the client; the state of the store
    afterwards and the errors that came back. *)
Fixpoint run_commands (r : R) (cmds : list (string * list arg)) : R * list error :=
  match cmds with
  | [] => (r, [])
  | (command, args) :: cmds =>
      let '(r, _, err) := Do r command args in
      let '(r, errs) := run_commands r cmds in
      (r, match err with Some e => e :: errs | None => errs end)
  end.

(** The state after the [GET] of a load that reached the store [r']. *)
Definition after_GET (s : StorageRedis) (w : World) (sessionId : string) (r' : R)
  : StorageRedis * World :=
  (mkStorageRedis r' (prefix s) (updatingIdMap s),
   mkWorld (heap w) (sent w ++ [("GET"%string, [ArgString (sessionIdToRedisKey s sessionId)])])
     (intlog w)).

End Storage.

Arguments StorageRedis R : clear implicits.

(* ===================================================================== *)
(** ** StorageMemory                                                      *)
(* ===================================================================== *)

(** [type StorageMemory struct{}] *)
Record StorageMemory : Set := mkStorageMemory {}.

Definition NewStorageMemory : StorageMemory := mkStorageMemory.

Definition StorageMemory_New (s : StorageMemory) (ttl : Duration) : string * option error :=
  (EmptyString, Some ErrorDisabled).

Definition StorageMemory_Get (s : StorageMemory) (sessionId key : string)
  : option json.Value * option error :=
  (None, Some ErrorDisabled).

Definition StorageMemory_Data (s : StorageMemory) (sessionId : string)
  : option (gmap string json.Value) * option error :=
  (None, Some ErrorDisabled).

Definition StorageMemory_GetSize (s : StorageMemory) (sessionId : string) : Z * option error :=
  (-1, Some ErrorDisabled).

Definition StorageMemory_Set (s : StorageMemory) (sessionId key : string)
    (value : option json.Value) (ttl : Duration) : option error :=
  Some ErrorDisabled.

Definition StorageMemory_SetMap (s : StorageMemory) (sessionId : string)
    (data : option (gmap string json.Value)) (ttl : Duration) : option error :=
  Some ErrorDisabled.

Definition StorageMemory_Remove (s : StorageMemory) (sessionId key : string) : option error :=
  Some ErrorDisabled.

Definition StorageMemory_RemoveAll (s : StorageMemory) (sessionId : string) : option error :=
  Some ErrorDisabled.

Definition StorageMemory_GetSession (s : StorageMemory) (sessionId : string)
    (ttl : Duration) (data : option loc) : option loc * option error :=
  (data, None).

Definition StorageMemory_SetSession (s : StorageMemory) (sessionId : string)
    (data : option (gmap string json.Value)) (ttl : Duration) : option error :=
  None.

Definition StorageMemory_UpdateTTL (s : StorageMemory) (sessionId : string)
    (ttl : Duration) : option error :=
  None.

(* ===================================================================== *)
(** ** Stores to run the storage against                                  *)
(* ===================================================================== *)

(** Modelled from the spec: the key-value store is an external service
    "exposing GET/SETEX/EXPIRE/DEL semantics".  [MemRedis] is such a store
    held in memory: every key has a value and the time (in seconds) at which
    the store discards it.  [SETEX] "atomically writes the blob and sets the
    expiry" and refuses an expiry that is not positive; [EXPIRE] on a key
    that is gone is a no-op result, not an error; [DEL] of an absent key
    succeeds. *)
Record MemRedis := mkMemRedis {
  now : Z;
  table : gmap string (string * Z)
}.

Definition live (r : MemRedis) (key : string) : option string :=
  match table r !! key with
  | Some (value, deadline) => if now r <? deadline then Some value else None
  | None => None
  end.

Definition MemRedis_Do (r : MemRedis) (command : string) (args : list arg)
  : MemRedis * reply * option error :=
  let wrong := (r, None, Some (RedisError "ERR wrong number of arguments")) in
  if String.eqb command "GET" then
    match args with
    | [ArgString key] => (r, live r key, None)
    | _ => wrong
    end
  else if String.eqb command "SETEX" then
    match args with
    | [ArgString key; ArgInt seconds; ArgBytes value] =>
        if seconds <=? 0 then (r, None, Some (RedisError "ERR invalid expire time in 'setex' command"))
        else (mkMemRedis (now r) (<[key := (value, now r + seconds)]> (table r)),
              Some "OK"%string, None)
    | _ => wrong
    end
  else if String.eqb command "EXPIRE" then
    match args with
    | [ArgString key; ArgInt seconds] =>
        match live r key with
        | Some value =>
            (mkMemRedis (now r) (<[key := (value, now r + seconds)]> (table r)),
             Some "1"%string, None)
        | None => (r, Some "0"%string, None)
        end
    | _ => wrong
    end
  else if String.eqb command "DEL" then
    match args with
    | [ArgString key] =>
        (mkMemRedis (now r) (delete key (table r)),
         Some match live r key with Some _ => "1" | None => "0" end%string, None)
    | _ => wrong
    end
  else (r, None, Some (RedisError "ERR unknown command")).

#[global] Instance MemRedis_client : RedisClient MemRedis := MemRedis_Do.

(** A client whose connection is down: every command fails. *)
Record DownRedis : Set := mkDownRedis {}.

#[global] Instance DownRedis_client : RedisClient DownRedis :=
  λ r _ _, (r, None, Some (RedisError "dial tcp: connection refused")).

(** A store that fails on the keys listed in [refused] and serves the
    others. *)
Record FlakyRedis := mkFlakyRedis {
  inner : MemRedis;
  refused : list string
}.

Definition FlakyRedis_Do (r : FlakyRedis) (command : string) (args : list arg)
  : FlakyRedis * reply * option error :=
  match args with
  | ArgString key :: _ =>
      if bool_decide (key ∈ refused r) then (r, None, Some (RedisError "i/o timeout"))
      else
        let '(i, v, err) := MemRedis_Do (inner r) command args in
        (mkFlakyRedis i (refused r), v, err)
  | _ =>
      let '(i, v, err) := MemRedis_Do (inner r) command args in
      (mkFlakyRedis i (refused r), v, err)
  end.

#[global] Instance FlakyRedis_client : RedisClient FlakyRedis := FlakyRedis_Do.

(** An empty store at time 0, a storage on it, and an empty process
    state. *)
Definition emptyRedis : MemRedis := mkMemRedis 0 ∅.

Definition newStorage : StorageRedis MemRedis := mkStorageRedis emptyRedis EmptyString ∅.

Definition emptyWorld : World := mkWorld ∅ [] [].

(** States used to run the operations on. *)

(** Two renewals queued on a store that refuses the second key. *)
Definition flakyStorage : StorageRedis FlakyRedis :=
  (UpdateTTL (UpdateTTL (mkStorageRedis (mkFlakyRedis emptyRedis ["sess:b"%string]) "sess:" ∅)
                "a" (30 * Second)).1 "b" (40 * Second)).1.

(** A renewal queued under the empty session id, and one under [abc]. *)
Definition emptyIdStorage : StorageRedis MemRedis :=
  (UpdateTTL (UpdateTTL newStorage EmptyString (30 * Second)).1 "abc" (30 * Second)).1.

Definition downStorage : StorageRedis DownRedis := mkStorageRedis mkDownRedis EmptyString ∅.

(** A record that is not JSON. *)
Definition garbageStorage : StorageRedis MemRedis :=
  mkStorageRedis (mkMemRedis 0 {["abc"%string := ("{"%string, 60)]}) EmptyString ∅.

Definition sampleMap : gmap string json.Value :=
  {["user"%string := json.VString "john";
    "visits"%string := json.VNumber (json.mkNumber false 100 Nil None)]}.

(** The storage after saving [sampleMap], and after saving a nil map,
    under [abc] for a minute. *)
Definition savedStorage : StorageRedis MemRedis :=
  (SetSession newStorage emptyWorld "abc" (Some sampleMap) (60 * Second)).1.1.

Definition savedNilStorage : StorageRedis MemRedis :=
  (SetSession newStorage emptyWorld "abc" None (60 * Second)).1.1.

(** A process that holds one session map, at address 1. *)
Definition staleWorld : World :=
  mkWorld {[1%positive := {["stale"%string := json.VNull]}]} [] [].


(* ===================================================================== *)
(** * Properties                                                          *)
(* ===================================================================== *)

(** ** Rounding to binary64 *)

Section float64_facts.
Import float64.

(** [rne n d] is within one half of [n / d]. *)
Lemma rne_bounds n d : 0 < d ->
  (2 * rne n d - 1) * d <= 2 * n <= (2 * rne n d + 1) * d.
Proof.
  intros Hd. unfold rne.
  pose proof (Z.div_mod n d ltac:(lia)) as E.
  pose proof (Z.mod_pos_bound n d Hd) as B.
  set (q := n / d) in *. set (r := n mod d) in *.
  destruct (Z.ltb_spec (2 * r) d); [nia|].
  destruct (Z.ltb_spec d (2 * r)); [nia|].
  destruct (Z.even q); nia.
Qed.

Lemma rne_tie_lo n d : 0 < d ->
  2 * n = (2 * rne n d - 1) * d -> Z.even (rne n d) = true.
Proof.
  intros Hd. unfold rne.
  pose proof (Z.div_mod n d ltac:(lia)) as E.
  pose proof (Z.mod_pos_bound n d Hd) as B.
  set (q := n / d) in *. set (r := n mod d) in *.
  destruct (Z.ltb_spec (2 * r) d); [nia|].
  destruct (Z.ltb_spec d (2 * r)); [nia|].
  destruct (Z.even q) eqn:Ev; [nia|].
  intros _. rewrite Z.even_add, Ev. reflexivity.
Qed.

Lemma rne_tie_hi n d : 0 < d ->
  2 * n = (2 * rne n d + 1) * d -> Z.even (rne n d) = true.
Proof.
  intros Hd. unfold rne.
  pose proof (Z.div_mod n d ltac:(lia)) as E.
  pose proof (Z.mod_pos_bound n d Hd) as B.
  set (q := n / d) in *. set (r := n mod d) in *.
  destruct (Z.ltb_spec (2 * r) d); [nia|].
  destruct (Z.ltb_spec d (2 * r)); [nia|].
  destruct (Z.even q) eqn:Ev; [auto|nia].
Qed.

Lemma rne_mono n d n' d' : 0 < d -> 0 < d' ->
  n * d' <= n' * d -> rne n d <= rne n' d'.
Proof.
  intros Hd Hd' Hle.
  pose proof (rne_bounds n d Hd) as [L _].
  pose proof (rne_bounds n' d' Hd') as [_ U].
  pose proof (rne_tie_lo n d Hd) as TL.
  pose proof (rne_tie_hi n' d' Hd') as TH.
  set (a := rne n d) in *. set (a' := rne n' d') in *.
  destruct (Z_le_gt_dec a a') as [|Hgt]; [assumption|exfalso].
  assert (H1 : (2 * a - 1) * (d * d') <= (2 * a' + 1) * (d * d')) by nia.
  assert (Ha : a = a' + 1) by nia.
  assert (E1 : 2 * n = (2 * a - 1) * d) by nia.
  assert (E2 : 2 * n' = (2 * a' + 1) * d') by nia.
  specialize (TL E1). specialize (TH E2).
  rewrite Ha, Z.even_add, TH in TL. discriminate.
Qed.

Lemma rne_int z : rne z 1 = z.
Proof.
  unfold rne. rewrite Z.div_1_r, Z.mod_1_r. reflexivity.
Qed.

Lemma rne_exact q d : 0 < d -> rne (q * d) d = q.
Proof.
  intros Hd. unfold rne. rewrite Z.div_mul, Z.mod_mul by lia.
  destruct (Z.ltb_spec (2 * 0) d); [reflexivity|lia].
Qed.

Lemma rne_nonneg n d : 0 <= n -> 0 < d -> 0 <= rne n d.
Proof.
  intros Hn Hd. rewrite <- (rne_exact 0 d Hd). apply rne_mono; nia.
Qed.

Lemma log2_upper x : 0 <= x -> x < 2 ^ (Z.log2 x + 1).
Proof.
  intros Hx. destruct (Z.eq_dec x 0) as [->|].
  - reflexivity.
  - replace (Z.log2 x + 1) with (Z.succ (Z.log2 x)) by lia.
    apply Z.log2_spec. lia.
Qed.

Lemma div_le_cross n d n' d' : 0 < d -> 0 < d' ->
  n * d' <= n' * d -> n / d <= n' / d'.
Proof.
  intros Hd Hd' H. apply Z.div_le_lower_bound; [assumption|].
  pose proof (Z.mul_div_le n d Hd). nia.
Qed.

Lemma round_pos_nonneg n d : 0 <= n -> 0 < d -> 0 <= round_pos n d.
Proof.
  intros Hn Hd. unfold round_pos.
  set (e := Z.max 0 _).
  assert (0 < 2 ^ e) by (apply Z.pow_pos_nonneg; lia).
  pose proof (rne_nonneg n (d * 2 ^ e) Hn ltac:(nia)). nia.
Qed.

Lemma round_pos_mono n d n' d' : 0 <= n -> 0 < d -> 0 < d' ->
  n * d' <= n' * d -> round_pos n d <= round_pos n' d'.
Proof.
  intros Hn Hd Hd' Hle. unfold round_pos.
  assert (Hn' : 0 <= n') by nia.
  pose proof (div_le_cross _ _ _ _ Hd Hd' Hle) as Hx.
  assert (Hx0 : 0 <= n / d) by (apply Z.div_pos; lia).
  set (x := n / d) in *. set (x' := n' / d') in *.
  pose proof (Z.log2_le_mono _ _ Hx) as Hk.
  pose proof (Z.log2_nonneg x) as Hk0.
  set (k := Z.log2 x) in *. set (k' := Z.log2 x') in *.
  set (e := Z.max 0 (k - 52)). set (e' := Z.max 0 (k' - 52)).
  assert (He : 0 <= e <= e') by lia.
  assert (Hu : 0 < 2 ^ e) by (apply Z.pow_pos_nonneg; lia).
  assert (Hu' : 0 < 2 ^ e') by (apply Z.pow_pos_nonneg; lia).
  destruct (Z.eq_dec e e') as [Heq|Hne].
  - rewrite <- Heq. apply Z.mul_le_mono_nonneg_l; [lia|].
    apply rne_mono; nia.
  - assert (He' : e' = k' - 52) by lia.
    (* the smaller result stays below the next power of two *)
    assert (Hup : rne n (d * 2 ^ e) <= 2 ^ 53).
    { rewrite <- (rne_int (2 ^ 53)). apply rne_mono; [nia|lia|].
      pose proof (log2_upper x Hx0) as Hlt. fold k in Hlt.
      assert (n < (x + 1) * d).
      { unfold x. pose proof (Z.mul_succ_div_gt n d Hd). lia. }
      assert (Hp : 2 ^ (k + 1) <= 2 ^ (53 + e)) by (apply Z.pow_le_mono_r; lia).
      rewrite (Z.pow_add_r 2 53 e) in Hp by lia.
      assert ((x + 1) * d <= 2 ^ 53 * 2 ^ e * d) by (apply Z.mul_le_mono_nonneg_r; lia).
      lia. }
    assert (Hlow : 2 ^ 52 <= rne n' (d' * 2 ^ e')).
    { rewrite <- (rne_int (2 ^ 52)). apply rne_mono; [lia|nia|].
      assert (0 < x').
      { destruct (Z_lt_le_dec 0 x') as [|Hle0]; [assumption|].
        unfold k' in He'. rewrite (Z.log2_nonpos x' Hle0) in He'. lia. }
      pose proof (proj1 (Z.log2_spec x' ltac:(lia))) as Hge. fold k' in Hge.
      assert (x' * d' <= n') by (unfold x'; pose proof (Z.mul_div_le n' d' Hd'); lia).
      replace k' with (52 + e') in Hge by lia.
      rewrite Z.pow_add_r in Hge by lia.
      assert (2 ^ 52 * 2 ^ e' * d' <= x' * d') by (apply Z.mul_le_mono_nonneg_r; lia).
      lia. }
    assert (Hp : 2 ^ (e + 53) <= 2 ^ (e' + 52)) by (apply Z.pow_le_mono_r; lia).
    rewrite !Z.pow_add_r in Hp by lia.
    assert (2 ^ e * rne n (d * 2 ^ e) <= 2 ^ e * 2 ^ 53) by (apply Z.mul_le_mono_nonneg_l; lia).
    assert (2 ^ e' * 2 ^ 52 <= 2 ^ e' * rne n' (d' * 2 ^ e')) by (apply Z.mul_le_mono_nonneg_l; lia).
    lia.
Qed.

Lemma round_pos_exact m j : 0 <= m < 2 ^ 53 -> 0 <= j ->
  round_pos (m * 2 ^ j) 1 = m * 2 ^ j.
Proof.
  intros Hm Hj. unfold round_pos. rewrite Z.div_1_r, Z.mul_1_l.
  set (e := Z.max 0 _).
  assert (He : 0 <= e) by lia.
  destruct (Z.eq_dec m 0) as [->|Hm0].
  { rewrite Z.mul_0_l. change 0 with (0 * 2 ^ e) at 1.
    rewrite rne_exact by (apply Z.pow_pos_nonneg; lia). lia. }
  assert (Hej : e <= j).
  { unfold e. assert (0 < 2 ^ j) by (apply Z.pow_pos_nonneg; lia).
    rewrite Z.log2_mul_pow2 by lia.
    assert (Z.log2 m < 53) by (apply Z.log2_lt_pow2; lia). lia. }
  replace (m * 2 ^ j) with (m * 2 ^ (j - e) * 2 ^ e).
  - rewrite rne_exact by (apply Z.pow_pos_nonneg; lia). lia.
  - rewrite <- Z.mul_assoc, <- Z.pow_add_r by lia. f_equal. f_equal. lia.
Qed.

Lemma scale_pos : 0 < scale.
Proof. reflexivity. Qed.

Lemma round_pos_0 d : 0 < d -> round_pos 0 d = 0.
Proof.
  intros Hd. unfold round_pos.
  set (u := 2 ^ _).
  assert (H : 0 < u) by (apply Z.pow_pos_nonneg; lia).
  pose proof (rne_exact 0 (d * u) ltac:(nia)) as E.
  rewrite Z.mul_0_l in E. rewrite E. lia.
Qed.

Lemma round_nonneg_eq n d : 0 <= n -> 0 < d -> round n d = round_pos n d.
Proof.
  intros Hn Hd. unfold round. rewrite Z.abs_eq by assumption.
  destruct (Z.eq_dec n 0) as [->|]; [rewrite round_pos_0 by assumption; reflexivity|].
  rewrite Z.sgn_pos by lia. lia.
Qed.

Lemma round_opp n d : round (- n) d = - round n d.
Proof. unfold round. rewrite Z.sgn_opp, Z.abs_opp. lia. Qed.

Lemma of_int_exact z : 0 <= z < 2 ^ 53 -> of_int z = z * scale.
Proof.
  intros Hz. unfold of_int. pose proof scale_pos.
  rewrite round_nonneg_eq by nia.
  apply (round_pos_exact z 1074); lia.
Qed.

Lemma rne_le n d b : 0 < d -> 2 * n < (2 * b + 1) * d -> rne n d <= b.
Proof.
  intros Hd H. pose proof (rne_bounds n d Hd) as [L _]. nia.
Qed.

Lemma frac_max_facts :
  round_pos frac_max 1 < scale /\ 2 ^ 1045 < 2 * (scale - frac_max) /\ 0 <= frac_max < scale.
Proof. vm_compute. repeat split; congruence. Qed.

Lemma sum_below_next sec : 0 <= sec < 2 ^ 24 ->
  round_pos (sec * scale + frac_max) 1 < (sec + 1) * scale.
Proof.
  intros Hs. destruct frac_max_facts as (H0 & Hgap & Hc).
  destruct (Z.eq_dec sec 0) as [->|Hne]; [exact H0|].
  unfold round_pos. rewrite Z.div_1_r, Z.mul_1_l.
  set (L := Z.log2 sec).
  assert (HL : 0 <= L < 24).
  { split; [apply Z.log2_nonneg|]. apply Z.log2_lt_pow2; lia. }
  pose proof (Z.log2_spec sec ltac:(lia)) as [Hlo Hhi]. fold L in Hlo, Hhi.
  assert (HS : scale = 2 ^ (52 - L) * 2 ^ (L + 1022)).
  { rewrite <- Z.pow_add_r by lia. unfold scale. f_equal. lia. }
  assert (Hlog : Z.log2 (sec * scale + frac_max) = L + 1074).
  { apply Z.log2_unique; [lia|].
    replace (Z.succ (L + 1074)) with (Z.succ L + 1074) by lia.
    rewrite !Z.pow_add_r by lia. fold scale. nia. }
  rewrite Hlog. replace (Z.max 0 (L + 1074 - 52)) with (L + 1022) by lia.
  set (u := 2 ^ (L + 1022)) in *.
  assert (Hu : 0 < u) by (apply Z.pow_pos_nonneg; lia).
  assert (Hu' : u <= 2 ^ 1045) by (apply Z.pow_le_mono_r; lia).
  set (p := 2 ^ (52 - L)) in *.
  assert (Hp : 0 < p) by (apply Z.pow_pos_nonneg; lia).
  pose proof (rne_le (sec * scale + frac_max) u ((sec + 1) * p - 1) Hu) as Hr.
  assert (rne (sec * scale + frac_max) u <= (sec + 1) * p - 1) by (apply Hr; nia).
  nia.
Qed.

Lemma frac_bounds nsec : 0 <= nsec < Second ->
  0 <= div (of_int nsec) (of_int 1000000000) <= frac_max.
Proof.
  intros Hn. unfold Second in Hn. pose proof scale_pos as HS.
  rewrite !of_int_exact by lia.
  unfold div. rewrite Z.sgn_pos, Z.abs_eq, Z.mul_1_l by lia.
  rewrite round_nonneg_eq by nia.
  split.
  - apply round_pos_nonneg; nia.
  - unfold frac_max. apply round_pos_mono; nia.
Qed.

Lemma Seconds_nonneg_bounds d : 0 <= d -> d ÷ Second < 2 ^ 24 ->
  (d ÷ Second) * scale <= Seconds d < (d ÷ Second + 1) * scale.
Proof.
  intros Hd Hlt. unfold Seconds. cbv zeta.
  assert (HSec : 0 < Second) by reflexivity.
  assert (Hsec : 0 <= d ÷ Second) by (apply Z.quot_pos; lia).
  pose proof (Z.rem_bound_pos d Second Hd HSec) as Hrem.
  set (sec := d ÷ Second) in *. set (nsec := Z.rem d Second) in *.
  pose proof (frac_bounds nsec Hrem) as Hq.
  set (q := div _ _) in *.
  pose proof scale_pos as HS.
  rewrite of_int_exact by lia.
  unfold add. rewrite round_nonneg_eq by nia.
  split.
  - pose proof (round_pos_exact sec 1074 ltac:(lia) ltac:(lia)) as E.
    fold scale in E. rewrite <- E at 1.
    apply round_pos_mono; lia.
  - eapply Z.le_lt_trans; [|apply sum_below_next; lia].
    apply round_pos_mono; lia.
Qed.

Lemma of_int_opp z : of_int (- z) = - of_int z.
Proof. unfold of_int. rewrite Z.mul_opp_l. apply round_opp. Qed.

Lemma div_opp_l a b : div (- a) b = - div a b.
Proof.
  unfold div. replace (Z.sgn b * - a * scale) with (- (Z.sgn b * a * scale)) by lia.
  apply round_opp.
Qed.

Lemma add_opp a b : add (- a) (- b) = - add a b.
Proof. unfold add. rewrite <- Z.opp_add_distr. apply round_opp. Qed.

Lemma Seconds_opp d : Seconds (- d) = - Seconds d.
Proof.
  unfold Seconds. cbv zeta.
  rewrite Z.quot_opp_l, Z.rem_opp_l by discriminate.
  rewrite !of_int_opp, div_opp_l. apply add_opp.
Qed.

(** The second count is exact for every duration of less than [2^24]
    seconds (about 194 days), whatever its sign. *)
Lemma ttlSeconds_truncates d :
  Z.abs d < 2 ^ 24 * Second -> ttlSeconds d = d ÷ Second.
Proof.
  assert (Hpos : forall x, 0 <= x < 2 ^ 24 * Second -> ttlSeconds x = x ÷ Second).
  { intros x Hx.
    assert (x ÷ Second < 2 ^ 24) by (apply Z.quot_lt_upper_bound; unfold Second in *; lia).
    pose proof (Seconds_nonneg_bounds x ltac:(lia) H) as B.
    assert (0 <= x ÷ Second) by (apply Z.quot_pos; unfold Second; lia).
    unfold ttlSeconds, to_int64. pose proof scale_pos.
    rewrite Z.quot_div_nonneg by lia.
    symmetry. apply (Z.div_unique _ _ _ (Seconds x - x ÷ Second * scale)); lia. }
  intros Hd. destruct (Z_le_gt_dec 0 d) as [|Hneg].
  - apply Hpos. lia.
  - assert (E : ttlSeconds d = - ttlSeconds (- d)).
    { unfold ttlSeconds, to_int64. rewrite Seconds_opp, Z.quot_opp_l by discriminate. lia. }
    rewrite E, Hpos, Z.quot_opp_l by (try discriminate; lia). lia.
Qed.


(** A TTL of at least one second converts to at least one second,
    however large it is. *)
Lemma ttlSeconds_ge_1 d : Second <= d -> 1 <= ttlSeconds d.
Proof.
  intros Hd. unfold ttlSeconds, to_int64, Seconds. cbv zeta.
  assert (HSec : 0 < Second) by reflexivity.
  assert (Hsec : 1 <= d ÷ Second).
  { apply Z.quot_le_lower_bound; lia. }
  pose proof (Z.rem_bound_pos d Second ltac:(lia) HSec) as Hrem.
  pose proof (frac_bounds _ Hrem) as [Hq _].
  set (sec := d ÷ Second) in *. set (q := div _ _) in *.
  pose proof scale_pos as HS.
  pose proof (round_pos_exact 1 1074 ltac:(lia) ltac:(lia)) as E.
  fold scale in E. rewrite Z.mul_1_l in E.
  assert (Ha : scale <= of_int sec).
  { unfold of_int. rewrite round_nonneg_eq by nia.
    rewrite <- E at 1. apply round_pos_mono; nia. }
  apply Z.quot_le_lower_bound; [lia|].
  unfold add. rewrite round_nonneg_eq by lia.
  rewrite Z.mul_1_r. rewrite <- E at 1. apply round_pos_mono; lia.
Qed.

(** A TTL of at least [k] whole seconds converts to at least [k], however
    large it is: rounding never takes the sum below a whole number that
    is itself a float. *)
Lemma ttlSeconds_lower k d :
  0 <= k < 2 ^ 53 -> k * Second <= d -> k <= ttlSeconds d.
Proof.
  intros Hk Hd. unfold ttlSeconds, to_int64, Seconds. cbv zeta.
  assert (HSec : 0 < Second) by reflexivity.
  assert (Hsec : k <= d ÷ Second).
  { apply Z.quot_le_lower_bound; lia. }
  pose proof (Z.rem_bound_pos d Second ltac:(lia) HSec) as Hrem.
  pose proof (frac_bounds _ Hrem) as [Hq _].
  set (sec := d ÷ Second) in *. set (q := div _ _) in *.
  pose proof scale_pos as HS.
  pose proof (round_pos_exact k 1074 Hk ltac:(lia)) as E.
  fold scale in E.
  assert (Ha : k * scale <= of_int sec).
  { unfold of_int. rewrite round_nonneg_eq by nia.
    rewrite <- E at 1. apply round_pos_mono; nia. }
  apply Z.quot_le_lower_bound; [lia|].
  unfold add. rewrite round_nonneg_eq by nia.
  rewrite Z.mul_comm. rewrite <- E at 1. apply round_pos_mono; nia.
Qed.

(** The conversion of a non-negative 64-bit duration is never more than
    one second above its whole seconds: the sum stays below the next whole
    number, which is itself a float. *)
Lemma ttlSeconds_upper d :
  0 <= d < 2 ^ 63 -> ttlSeconds d <= d ÷ Second + 1.
Proof.
  intros Hd. unfold ttlSeconds, to_int64, Seconds. cbv zeta.
  assert (HSec : 0 < Second) by reflexivity.
  assert (Hsec : 0 <= d ÷ Second) by (apply Z.quot_pos; lia).
  assert (Hlt : d ÷ Second < 2 ^ 53 - 1).
  { apply Z.quot_lt_upper_bound; unfold Second in *; lia. }
  pose proof (Z.rem_bound_pos d Second ltac:(lia) HSec) as Hrem.
  pose proof (frac_bounds _ Hrem) as [Hq0 Hq].
  destruct frac_max_facts as (_ & _ & Hc).
  set (sec := d ÷ Second) in *. set (q := div _ _) in *.
  pose proof scale_pos as HS.
  rewrite of_int_exact by lia.
  pose proof (round_pos_exact (sec + 1) 1074 ltac:(lia) ltac:(lia)) as E.
  fold scale in E.
  unfold add. rewrite round_nonneg_eq by nia.
  assert (Hr : round_pos (sec * scale + q) 1 <= (sec + 1) * scale).
  { rewrite <- E. apply round_pos_mono; nia. }
  assert (H0 : 0 <= round_pos (sec * scale + q) 1) by (apply round_pos_nonneg; nia).
  rewrite Z.quot_div_nonneg by lia.
  apply Z.lt_succ_r, Z.div_lt_upper_bound; nia.
Qed.

End float64_facts.

(** [Seconds] is the number the kernel's binary64 arithmetic computes, on
    durations around every case of the rounding. *)
Example Seconds_agrees_with_binary64 :
  forallb
    (λ d, match float64.of_prim (primSeconds d) with
          | Some z => z =? Seconds d
          | None => false
          end)
    [0; 1; -1; 999999999; 1500000000; -1500000000; 30000000000;
     16777215999999999; 16777216999999999; -16777216999999999;
     8388607999999999; 123456789123456789;
     9223372036854775807; -9223372036854775807] = true.
Proof. vm_compute. reflexivity. Qed.

(** From [2^24] seconds on, a nanosecond part close to one second no
    longer fits the 53 bits of the sum, which rounds up to the next second. *)
Example ttlSeconds_rounds_up :
  ttlSeconds 16777216999999999 = 16777217 ∧ 16777216999999999 ÷ Second = 16777216.
Proof. split; vm_compute; reflexivity. Qed.

(** ** The Pending-Renewal Set *)

Lemma filter_key_absent {A} (l : list (string * A)) (k : string) :
  k ∉ l.*1 → filter (λ kv, kv.1 = k) l = [].
Proof.
  induction l as [|[k' v'] l IH]; [done|]. simpl. intros Hk.
  apply not_elem_of_cons in Hk as [Hne Hk].
  rewrite filter_cons. simpl. rewrite decide_False by done. by apply IH.
Qed.

Lemma filter_key_NoDup {A} (l : list (string * A)) (k : string) (v : A) :
  NoDup l.*1 → (k, v) ∈ l → filter (λ kv, kv.1 = k) l = [(k, v)].
Proof.
  induction l as [|[k' v'] l IH]; intros Hnd Hin.
  - by apply elem_of_nil in Hin.
  - simpl in Hnd. apply NoDup_cons in Hnd as [Hk' Hnd]. rewrite filter_cons. simpl.
    apply elem_of_cons in Hin as [Heq|Hin].
    + simplify_eq. rewrite decide_True by done. f_equal. by apply filter_key_absent.
    + case_decide as Hd.
      * subst k'. exfalso. apply Hk', list_elem_of_fmap. by exists (k, v).
      * by apply IH.
Qed.

(** A key bound in a map has exactly one entry in it. *)
Lemma one_entry_per_key {A} (m : gmap string A) (k : string) (v : A) :
  m !! k = Some v → filter (λ kv, kv.1 = k) (map_to_list m) = [(k, v)].
Proof.
  intros Hm. apply filter_key_NoDup.
  - apply NoDup_fst_map_to_list.
  - by apply elem_of_map_to_list.
Qed.

Section Storage_facts.
Context {R : Type} `{!RedisClient R}.
Implicit Types (s : StorageRedis R) (w : World) (sessionId : string) (ttl : Duration).

Lemma UpdateTTL_below s sessionId ttl :
  ttl < DefaultStorageRedisLoopInterval → UpdateTTL s sessionId ttl = (s, None).
Proof. intros Hlt. unfold UpdateTTL. by rewrite decide_False by lia. Qed.

Lemma UpdateTTL_queued s sessionId ttl :
  DefaultStorageRedisLoopInterval <= ttl →
  UpdateTTL s sessionId ttl =
    (mkStorageRedis (redis s) (prefix s) (<[sessionId := ttlSeconds ttl]> (updatingIdMap s)), None).
Proof. intros Hle. unfold UpdateTTL, StrIntMap_Set. by rewrite decide_True. Qed.

(** C1 (as amended).  A touch with a TTL below the flush interval leaves the
    storage, and with it the Pending-Renewal Set, as it was.  A touch with
    any TTL of at least the flush interval, however large, upserts one entry
    for the id and changes nothing else.  The value of the entry is the
    converted second count of the TTL: it is at least 10; for a 64-bit
    duration it is the truncated whole seconds of the TTL or one more; and
    below [2^24] seconds it is exactly the truncated whole seconds. *)
Theorem UpdateTTL_policy s sessionId ttl :
  (ttl < DefaultStorageRedisLoopInterval → (UpdateTTL s sessionId ttl).1 = s) ∧
  (DefaultStorageRedisLoopInterval <= ttl →
   (UpdateTTL s sessionId ttl).1 =
     mkStorageRedis (redis s) (prefix s)
       (<[sessionId := ttlSeconds ttl]> (updatingIdMap s)) ∧
   10 <= ttlSeconds ttl ∧
   (ttl < 2 ^ 63 → ttl ÷ Second <= ttlSeconds ttl <= ttl ÷ Second + 1) ∧
   (ttl < 2 ^ 24 * Second → ttlSeconds ttl = ttl ÷ Second)).
Proof.
  split.
  - intros Hlt. by rewrite UpdateTTL_below.
  - intros Hle.
    assert (H0 : 10 * Second <= ttl) by exact Hle.
    assert (HSec : 0 < Second) by reflexivity.
    split_and!.
    + by rewrite UpdateTTL_queued.
    + apply ttlSeconds_lower; [lia|exact H0].
    + intros H63.
      assert (Hq : ttl ÷ Second < 2 ^ 53).
      { apply Z.quot_lt_upper_bound; unfold Second in *; lia. }
      assert (Hq0 : 0 <= ttl ÷ Second) by (apply Z.quot_pos; lia).
      split.
      * apply ttlSeconds_lower; [lia|].
        pose proof (Z.quot_rem' ttl Second) as Hqr.
        pose proof (Z.rem_bound_pos ttl Second ltac:(lia) HSec). lia.
      * apply ttlSeconds_upper. lia.
    + intros Hlt. apply ttlSeconds_truncates.
      unfold DefaultStorageRedisLoopInterval, Second in *. lia.
Qed.

(** C3 (as amended).  When the second TTL is at least the flush interval,
    two touches of one id before a flush leave the set as one upsert of the
    second value would: the id has exactly one entry, and it holds the
    seconds of the second TTL (its truncated whole seconds below [2^24]
    seconds). *)
Theorem UpdateTTL_last_writer_wins s sessionId (t1 t2 : Duration) :
  DefaultStorageRedisLoopInterval <= t2 →
  let m := updatingIdMap (UpdateTTL (UpdateTTL s sessionId t1).1 sessionId t2).1 in
  m = <[sessionId := ttlSeconds t2]> (updatingIdMap s) ∧
  filter (λ kv, kv.1 = sessionId) (map_to_list m) = [(sessionId, ttlSeconds t2)] ∧
  (t2 < 2 ^ 24 * Second → ttlSeconds t2 = t2 ÷ Second).
Proof.
  intros H2 m.
  assert (Hm : m = <[sessionId := ttlSeconds t2]> (updatingIdMap s)).
  { subst m. rewrite (UpdateTTL_queued _ _ t2) by done. simpl.
    destruct (decide (DefaultStorageRedisLoopInterval <= t1)).
    - rewrite UpdateTTL_queued by done. simpl. apply insert_insert_eq.
    - by rewrite UpdateTTL_below by lia. }
  split_and!; [done| |].
  - apply one_entry_per_key. rewrite Hm. apply lookup_insert_eq.
  - intros Hlt. apply ttlSeconds_truncates.
    unfold DefaultStorageRedisLoopInterval, Second in *. lia.
Qed.

(** C9.  A touch never returns an error, queued or not. *)
Theorem UpdateTTL_returns_nil s sessionId ttl :
  (UpdateTTL s sessionId ttl).2 = None.
Proof. unfold UpdateTTL. by case_decide. Qed.

Lemma SetSession_sent s w sessionId data ttl :
  sent (SetSession s w sessionId data ttl).1.2 =
    sent w ++ [("SETEX"%string,
                [ArgString (sessionIdToRedisKey s sessionId); ArgInt (ttlSeconds ttl);
                 ArgBytes (Marshal data).1])].
Proof.
  unfold SetSession. destruct data as [m|]; simpl;
    unfold redis_Do; by destruct (Do _ _ _) as [[r' v] err].
Qed.

(** C6 (as amended).  For a TTL of less than [2^24] seconds in magnitude,
    the seconds sent with [SETEX] by a save, and the seconds queued by a
    touch, are the truncated whole seconds of the TTL. *)
Theorem ttlSeconds_sent_truncated s w sessionId data ttl :
  Z.abs ttl < 2 ^ 24 * Second →
  sent (SetSession s w sessionId data ttl).1.2 =
    sent w ++ [("SETEX"%string,
                [ArgString (sessionIdToRedisKey s sessionId); ArgInt (ttl ÷ Second);
                 ArgBytes (Marshal data).1])] ∧
  (DefaultStorageRedisLoopInterval <= ttl →
   updatingIdMap (UpdateTTL s sessionId ttl).1 !! sessionId = Some (ttl ÷ Second)).
Proof.
  intros Hlt. split.
  - by rewrite SetSession_sent, ttlSeconds_truncates.
  - intros Hle. rewrite UpdateTTL_queued by done. simpl.
    by rewrite lookup_insert_eq, ttlSeconds_truncates.
Qed.

(** C7.  Every operation the Redis storage does not offer returns the
    sentinel [ErrorDisabled], and so does every operation the memory
    placeholder does not offer, [RemoveAll] among them. *)
Theorem disabled_operations s (m : StorageMemory) ttl sessionId (key : string)
    (value : option json.Value) (data : option (gmap string json.Value)) :
  ((StorageRedis_New s ttl).2 = Some ErrorDisabled ∧
   (StorageRedis_Get s sessionId key).2 = Some ErrorDisabled ∧
   (StorageRedis_Data s sessionId).2 = Some ErrorDisabled ∧
   (StorageRedis_GetSize s sessionId).2 = Some ErrorDisabled ∧
   StorageRedis_Set s sessionId key value ttl = Some ErrorDisabled ∧
   StorageRedis_SetMap s sessionId data ttl = Some ErrorDisabled ∧
   StorageRedis_Remove s sessionId key = Some ErrorDisabled) ∧
  ((StorageMemory_New m ttl).2 = Some ErrorDisabled ∧
   (StorageMemory_Get m sessionId key).2 = Some ErrorDisabled ∧
   (StorageMemory_Data m sessionId).2 = Some ErrorDisabled ∧
   (StorageMemory_GetSize m sessionId).2 = Some ErrorDisabled ∧
   StorageMemory_Set m sessionId key value ttl = Some ErrorDisabled ∧
   StorageMemory_SetMap m sessionId data ttl = Some ErrorDisabled ∧
   StorageMemory_Remove m sessionId key = Some ErrorDisabled ∧
   StorageMemory_RemoveAll m sessionId = Some ErrorDisabled).
Proof. by split_and!. Qed.

End Storage_facts.

(** The scenario of the spec: a 5 s touch is dropped, a 30 s touch queues
    30.  A touch of 16777216.999999999 s is queued as well, with the
    rounded value. *)
Lemma UpdateTTL_policy_witness :
  updatingIdMap (UpdateTTL newStorage "abc" (5 * Second)).1 = ∅ ∧
  updatingIdMap (UpdateTTL newStorage "abc" (30 * Second)).1 = {["abc"%string := 30]} ∧
  updatingIdMap (UpdateTTL newStorage "abc" 16777216999999999).1
    = {["abc"%string := 16777217]}.
Proof.
  split_and!.
  - rewrite (proj1 (UpdateTTL_policy newStorage "abc" (5 * Second))); [reflexivity|].
    vm_compute. reflexivity.
  - destruct (proj2 (UpdateTTL_policy newStorage "abc" (30 * Second)))
      as (E & _ & _ & T); [vm_compute; discriminate|].
    rewrite E. cbn [updatingIdMap]. rewrite T by (vm_compute; reflexivity).
    reflexivity.
  - destruct (proj2 (UpdateTTL_policy newStorage "abc" 16777216999999999))
      as (E & _ & _ & _); [vm_compute; discriminate|].
    rewrite E. cbn [updatingIdMap].
    replace (ttlSeconds 16777216999999999) with 16777217 by (vm_compute; reflexivity).
    reflexivity.
Defined.

(** C1 as stated fails: a touch of 16777216.999999999 s queues 16777217,
    one more than the truncated whole seconds. *)
Lemma UpdateTTL_queues_rounded_seconds :
  let ttl := 16777216999999999 in
  DefaultStorageRedisLoopInterval <= ttl ∧
  ttl ÷ Second = 16777216 ∧
  updatingIdMap (UpdateTTL newStorage "abc" ttl).1 !! "abc"%string = Some 16777217 ∧
  updatingIdMap (UpdateTTL newStorage "abc" ttl).1
    ≠ <["abc"%string := ttl ÷ Second]> (updatingIdMap newStorage).
Proof.
  assert (E : updatingIdMap (UpdateTTL newStorage "abc" 16777216999999999).1 !! "abc"%string
              = Some 16777217) by (vm_compute; reflexivity).
  cbv zeta. split_and!; [vm_compute; discriminate|vm_compute; reflexivity|exact E|].
  intros Heq. rewrite Heq, lookup_insert_eq in E. vm_compute in E. discriminate E.
Qed.

Lemma UpdateTTL_last_writer_wins_witness :
  updatingIdMap (UpdateTTL (UpdateTTL newStorage "abc" (20 * Second)).1 "abc" (30 * Second)).1
  = {["abc"%string := 30]}.
Proof.
  destruct (UpdateTTL_last_writer_wins newStorage "abc" (20 * Second) (30 * Second))
    as (Hm & _ & Ht); [vm_compute; discriminate|].
  rewrite Hm, Ht; [reflexivity|vm_compute; reflexivity].
Defined.

(** C3 as stated fails: after a 30 s touch, a 5 s touch is dropped and the
    entry keeps 30. *)
Lemma UpdateTTL_short_second_touch :
  updatingIdMap (UpdateTTL (UpdateTTL newStorage "abc" (30 * Second)).1 "abc" (5 * Second)).1
    !! "abc"%string = Some 30 ∧
  ttlSeconds (5 * Second) = 5 ∧
  updatingIdMap (UpdateTTL (UpdateTTL newStorage "abc" (5 * Second)).1 "abc" (5 * Second)).1
    !! "abc"%string = None.
Proof. split_and!; vm_compute; reflexivity. Qed.

(** A save with a TTL of 1.5 s sends [SETEX] with 1 second. *)
Lemma ttlSeconds_sent_truncated_witness :
  sent (SetSession newStorage emptyWorld "abc" None 1500000000).1.2 =
    [("SETEX"%string, [ArgString "abc"; ArgInt 1; ArgBytes "null"])].
Proof.
  destruct (ttlSeconds_sent_truncated newStorage emptyWorld "abc" None 1500000000) as [H _].
  - vm_compute. reflexivity.
  - rewrite H. reflexivity.
Defined.

(** C6 as stated fails: a save with a TTL of 16777216.999999999 s sends
    [SETEX] with 16777217 seconds. *)
Lemma SetSession_sends_rounded_seconds :
  let ttl := 16777216999999999 in
  sent (SetSession newStorage emptyWorld "abc" None ttl).1.2 =
    [("SETEX"%string, [ArgString "abc"; ArgInt 16777217; ArgBytes "null"])] ∧
  ttl ÷ Second = 16777216.
Proof. split; vm_compute; reflexivity. Qed.

(** ** The renewal flusher *)

Lemma Pop_empty (choice : nat) : Pop choice ∅ = (EmptyString, 0, ∅).
Proof. unfold Pop. by rewrite map_to_list_empty. Qed.

(** On a map that is not empty, [Pop] removes one of its entries. *)
Lemma Pop_entry (choice : nat) (m : gmap string Z) :
  m ≠ ∅ → ∃ k v, m !! k = Some v ∧ Pop choice m = (k, v, delete k m).
Proof.
  intros Hne. unfold Pop.
  assert (Hsz : size m ≠ 0%nat) by by apply map_size_non_empty_iff.
  destruct (lookup_lt_is_Some_2 (map_to_list m) (choice `mod` size m)%nat) as [[k v] Hkv].
  { rewrite length_map_to_list. by apply Nat.mod_upper_bound. }
  rewrite Hkv. exists k, v. split; [|done].
  apply elem_of_map_to_list. by eapply list_elem_of_lookup_2.
Qed.

(** Every entry can be the one [Pop] hands out: the choice covers all
    iteration orders. *)
Lemma Pop_any (m : gmap string Z) (k : string) (v : Z) :
  m !! k = Some v → ∃ choice, Pop choice m = (k, v, delete k m).
Proof.
  intros Hm. apply elem_of_map_to_list, list_elem_of_lookup_1 in Hm as [i Hi].
  exists i. unfold Pop.
  assert (i < size m)%nat.
  { rewrite <- length_map_to_list. by eapply lookup_lt_Some. }
  by rewrite Nat.mod_small, Hi.
Qed.

Section Flusher_facts.
Context {R : Type} `{!RedisClient R}.
Implicit Types (s : StorageRedis R) (w : World).

(** The loop, once it has enough fuel for the entries queued: it issues
    the [EXPIRE] of every entry, in the order the entries were handed out,
    logs the errors that came back, and leaves the set empty. *)
Lemma timer_loop_drains (fuel : nat) :
  ∀ (choices : list nat) s w,
    updatingIdMap s !! EmptyString = None →
    (size (updatingIdMap s) < fuel)%nat →
    ∃ entries,
      entries ≡ₚ map_to_list (updatingIdMap s) ∧
      timer_loop fuel choices s w =
        let cmds := expire_command s <$> entries in
        let '(r, errs) := run_commands (redis s) cmds in
        Some (mkStorageRedis r (prefix s) ∅,
              mkWorld (heap w) (sent w ++ cmds) (intlog w ++ errs)).
Proof.
  induction fuel as [|fuel IH]; intros choices s w Hkey Hsize; [lia|].
  destruct s as [r p m]. simpl in *.
  destruct (decide (m = ∅)) as [->|Hne].
  - exists []. split; [by rewrite map_to_list_empty|].
    rewrite Pop_empty. simpl. rewrite !app_nil_r. by destruct w.
  - destruct (Pop_entry (hd 0%nat choices) m Hne) as (k & v & Hkv & HPop).
    rewrite HPop.
    assert (Hk : k ≠ EmptyString) by (intros ->; congruence).
    rewrite decide_False by done.
    unfold doUpdateTTL, redis_Do, sessionIdToRedisKey. simpl.
    destruct (Do r "EXPIRE" [ArgString (p +:+ k); ArgInt v]) as [[r1 v1] err1] eqn:HDo.
    set (w1 := match err1 with
               | Some e => intlog_Errorf (mkWorld (heap w) (sent w ++ [("EXPIRE"%string, [ArgString (p +:+ k); ArgInt v])]) (intlog w)) e
               | None => mkWorld (heap w) (sent w ++ [("EXPIRE"%string, [ArgString (p +:+ k); ArgInt v])]) (intlog w)
               end).
    destruct (IH (tl choices) (mkStorageRedis r1 p (delete k m)) w1) as (entries & Hperm & Hloop).
    { simpl. rewrite lookup_delete_ne; [done|]. by intros ->. }
    { simpl. rewrite map_size_delete, Hkv.
      assert (size m ≠ 0%nat) by by apply map_size_non_empty_iff. lia. }
    exists ((k, v) :: entries). split.
    { rewrite Hperm. simpl. by apply map_to_list_delete. }
    rewrite Hloop. rewrite fmap_cons.
    unfold expire_command, sessionIdToRedisKey. simpl.
    rewrite HDo.
    destruct (run_commands r1 _) as [r2 errs].
    f_equal. f_equal. subst w1.
    destruct err1; simpl; by rewrite <- !app_assoc.
Qed.

(** C2 (as amended).  When no entry is queued under the empty session id,
    one run of the timer callback returns, leaves the Pending-Renewal Set
    empty, and has issued exactly the [EXPIRE] commands of the queued
    entries, one per entry, in some order.  Whatever the client answers,
    every command is issued: the errors that come back are appended to the
    log and nothing else happens to them. *)
Theorem timer_callback_drains (choices : list nat) s w :
  updatingIdMap s !! EmptyString = None →
  ∃ entries r errs,
    entries ≡ₚ map_to_list (updatingIdMap s) ∧
    run_commands (redis s) (expire_command s <$> entries) = (r, errs) ∧
    timer_callback choices s w =
      Some (mkStorageRedis r (prefix s) ∅,
            mkWorld (heap w) (sent w ++ (expire_command s <$> entries)) (intlog w ++ errs)).
Proof.
  intros Hkey. unfold timer_callback.
  destruct (timer_loop_drains (S (size (updatingIdMap s))) choices s w Hkey) as (entries & Hperm & Hloop);
    [lia|].
  cbv zeta in Hloop.
  destruct (run_commands (redis s) (expire_command s <$> entries)) as [r errs] eqn:Hrun.
  by exists entries, r, errs.
Qed.

(** One command per queued entry, also in number. *)
Corollary timer_callback_count (choices : list nat) s w s' w' :
  updatingIdMap s !! EmptyString = None →
  timer_callback choices s w = Some (s', w') →
  updatingIdMap s' = ∅ ∧
  length (sent w') = (length (sent w) + size (updatingIdMap s))%nat.
Proof.
  intros Hkey Hrun. unfold timer_callback in Hrun.
  destruct (timer_loop_drains (S (size (updatingIdMap s))) choices s w Hkey)
    as (entries & Hperm & Heq); [lia|].
  rewrite Heq in Hrun. cbv zeta in Hrun.
  destruct (run_commands (redis s) (expire_command s <$> entries)) as [r errs].
  simplify_eq. simpl. split; [done|].
  by rewrite length_app, length_fmap, Hperm, length_map_to_list.
Qed.

End Flusher_facts.

(** A run on a store that refuses one of two keys: both [EXPIRE] commands
    are issued, the failure is logged, the set is empty afterwards. *)
Example timer_callback_flaky :
  timer_callback [] flakyStorage emptyWorld =
    Some (mkStorageRedis (mkFlakyRedis emptyRedis ["sess:b"%string]) "sess:" ∅,
          mkWorld ∅
            [("EXPIRE"%string, [ArgString "sess:a"; ArgInt 30]);
             ("EXPIRE"%string, [ArgString "sess:b"; ArgInt 40])]
            [RedisError "i/o timeout"]).
Proof. vm_compute. reflexivity. Qed.

Lemma timer_callback_drains_witness :
  ∃ entries r errs,
    entries ≡ₚ map_to_list (updatingIdMap flakyStorage) ∧
    run_commands (redis flakyStorage) (expire_command flakyStorage <$> entries) = (r, errs) ∧
    timer_callback [] flakyStorage emptyWorld =
      Some (mkStorageRedis r (prefix flakyStorage) ∅,
            mkWorld (heap emptyWorld)
              (sent emptyWorld ++ (expire_command flakyStorage <$> entries))
              (intlog emptyWorld ++ errs)).
Proof.
  apply (timer_callback_drains [] flakyStorage emptyWorld).
  vm_compute. reflexivity.
Defined.

(** C2 as stated fails on a set that holds the empty session id, which
    [UpdateTTL] queues like any other: the loop takes the popped empty id
    for the end of the set.  When it is popped first, the other entry stays
    queued and no [EXPIRE] is issued; when it is popped last, two entries
    are removed for one [EXPIRE]. *)
Lemma timer_callback_stops_at_empty_id :
  size (updatingIdMap emptyIdStorage) = 2%nat ∧
  timer_callback [1%nat] emptyIdStorage emptyWorld =
    Some (mkStorageRedis emptyRedis EmptyString {["abc"%string := 30]}, emptyWorld) ∧
  timer_callback [] emptyIdStorage emptyWorld =
    Some (mkStorageRedis emptyRedis EmptyString ∅,
          mkWorld ∅ [("EXPIRE"%string, [ArgString "abc"; ArgInt 30])] []).
Proof. split_and!; vm_compute; reflexivity. Qed.

(** ** Loading a session *)

Lemma UnmarshalUseNumber_empty :
  UnmarshalUseNumber EmptyString = (None, Some (JsonError "invalid JSON input")).
Proof. reflexivity. Qed.

Section GetSession_facts.
Context {R : Type} `{!RedisClient R}.
Implicit Types (s : StorageRedis R) (w : World) (sessionId : string) (ttl : Duration).

Lemma GetSession_error s w sessionId ttl data r' v e :
  Do (redis s) "GET" [ArgString (sessionIdToRedisKey s sessionId)] = (r', v, Some e) →
  GetSession s w sessionId ttl data = (after_GET s w sessionId r', (None, Some e)).
Proof. intros HDo. unfold GetSession, redis_Do. rewrite HDo. reflexivity. Qed.

Lemma GetSession_empty s w sessionId ttl data r' v :
  Do (redis s) "GET" [ArgString (sessionIdToRedisKey s sessionId)] = (r', v, None) →
  Bytes v = EmptyString →
  GetSession s w sessionId ttl data = (after_GET s w sessionId r', (None, None)).
Proof.
  intros HDo Hv. unfold GetSession, redis_Do. rewrite HDo, Hv.
  rewrite decide_True by done. reflexivity.
Qed.

Lemma GetSession_decoded s w sessionId ttl data r' v :
  Do (redis s) "GET" [ArgString (sessionIdToRedisKey s sessionId)] = (r', v, None) →
  Bytes v ≠ EmptyString →
  GetSession s w sessionId ttl data =
    let '(s', w') := after_GET s w sessionId r' in
    match UnmarshalUseNumber (Bytes v) with
    | (_, Some e) => (s', w', (None, Some e))
    | (None, None) => (s', w', (None, None))
    | (Some m, None) =>
        match data with
        | None => let '(w'', l) := NewStrAnyMapFrom w' m in (s', w'', (Some l, None))
        | Some l => (s', Replace w' l m, (Some l, None))
        end
    end.
Proof.
  intros HDo Hv. unfold GetSession, redis_Do. rewrite HDo. simpl.
  rewrite decide_False by (by destruct (Bytes v)).
  unfold after_GET. by destruct (UnmarshalUseNumber (Bytes v)) as [[m|] [e|]].
Qed.

(** C5.  A load that finds no record returns a nil map and a nil error.  A
    load whose [GET] fails returns that error, and a load whose (non-empty)
    payload fails to decode returns the decoder's error: neither is the
    outcome of an absent session. *)
Theorem GetSession_absent_or_failed s w sessionId ttl data r' v (e : error) :
  let GET := Do (redis s) "GET" [ArgString (sessionIdToRedisKey s sessionId)] in
  (GET = (r', None, None) → (GetSession s w sessionId ttl data).2 = (None, None)) ∧
  (GET = (r', v, Some e) →
   (GetSession s w sessionId ttl data).2 = (None, Some e) ∧
   (GetSession s w sessionId ttl data).2 ≠ (None, None)) ∧
  (GET = (r', v, None) → Bytes v ≠ EmptyString →
   (UnmarshalUseNumber (Bytes v)).2 = Some e →
   (GetSession s w sessionId ttl data).2 = (None, Some e) ∧
   (GetSession s w sessionId ttl data).2 ≠ (None, None)).
Proof.
  intros GET. subst GET. split_and!.
  - intros HDo. by rewrite (GetSession_empty _ _ _ _ _ _ _ HDo).
  - intros HDo. rewrite (GetSession_error _ _ _ _ _ _ _ _ HDo). simpl.
    split; [reflexivity|discriminate].
  - intros HDo Hv He. rewrite (GetSession_decoded _ _ _ _ _ _ _ HDo Hv).
    unfold after_GET.
    destruct (UnmarshalUseNumber (Bytes v)) as [m err]. simpl in He. subst err.
    destruct m; simpl; (split; [reflexivity|discriminate]).
Qed.

(** C10.  A record whose payload decodes to the JSON value [null] is
    reported as not found: a nil map and a nil error, and no map object is
    touched. *)
Theorem GetSession_null_payload s w sessionId ttl data r' v (rest : string) :
  Do (redis s) "GET" [ArgString (sessionIdToRedisKey s sessionId)] = (r', v, None) →
  json.parse_value (S (String.length (Bytes v))) (Bytes v) = Some (json.VNull, rest) →
  json.skip_space rest = EmptyString →
  (GetSession s w sessionId ttl data).2 = (None, None) ∧
  heap (GetSession s w sessionId ttl data).1.2 = heap w.
Proof.
  intros HDo Hparse Hrest.
  destruct (decide (Bytes v = EmptyString)) as [Hv|Hv].
  - by rewrite (GetSession_empty _ _ _ _ _ _ _ HDo Hv).
  - rewrite (GetSession_decoded _ _ _ _ _ _ _ HDo Hv). unfold after_GET.
    unfold UnmarshalUseNumber. by rewrite Hparse, Hrest.
Qed.

(** C8.  When the record decodes to a map and the caller passes an
    existing map object, the load stores the decoded entries in that object
    and returns the pointer it was given; no object is allocated and no
    other object changes. *)
Theorem GetSession_replaces_in_place s w sessionId ttl (l : loc) old r' v m :
  Do (redis s) "GET" [ArgString (sessionIdToRedisKey s sessionId)] = (r', v, None) →
  UnmarshalUseNumber (Bytes v) = (Some m, None) →
  heap w !! l = Some old →
  (GetSession s w sessionId ttl (Some l)).2 = (Some l, None) ∧
  heap (GetSession s w sessionId ttl (Some l)).1.2 = <[l := m]> (heap w) ∧
  dom (heap (GetSession s w sessionId ttl (Some l)).1.2) = dom (heap w).
Proof.
  intros HDo Hm Hl.
  assert (Hv : Bytes v ≠ EmptyString).
  { intros Hv. rewrite Hv, UnmarshalUseNumber_empty in Hm. discriminate Hm. }
  rewrite (GetSession_decoded _ _ _ _ _ _ _ HDo Hv). unfold after_GET. rewrite Hm. simpl.
  split_and!; [done..|].
  rewrite dom_insert_L. apply subseteq_union_1_L, singleton_subseteq_l.
  by apply elem_of_dom_2 in Hl.
Qed.

(** With a nil [data], the decoded map goes into a new object. *)
Lemma GetSession_allocates s w sessionId ttl r' v m :
  Do (redis s) "GET" [ArgString (sessionIdToRedisKey s sessionId)] = (r', v, None) →
  UnmarshalUseNumber (Bytes v) = (Some m, None) →
  ∃ l, heap w !! l = None ∧
       (GetSession s w sessionId ttl None).2 = (Some l, None) ∧
       heap (GetSession s w sessionId ttl None).1.2 = <[l := m]> (heap w).
Proof.
  intros HDo Hm.
  assert (Hv : Bytes v ≠ EmptyString).
  { intros Hv. rewrite Hv, UnmarshalUseNumber_empty in Hm. discriminate Hm. }
  exists (fresh (dom (heap w))). split.
  - apply not_elem_of_dom, is_fresh.
  - rewrite (GetSession_decoded _ _ _ _ _ _ _ HDo Hv). unfold after_GET. by rewrite Hm.
Qed.

End GetSession_facts.

Lemma GetSession_absent_or_failed_witness :
  (GetSession newStorage emptyWorld "abc" (60 * Second) None).2 = (None, None) ∧
  (GetSession downStorage emptyWorld "abc" (60 * Second) None).2
    = (None, Some (RedisError "dial tcp: connection refused")) ∧
  (GetSession garbageStorage emptyWorld "abc" (60 * Second) None).2
    = (None, Some (JsonError "invalid JSON input")).
Proof.
  split_and!.
  - destruct (GetSession_absent_or_failed newStorage emptyWorld "abc" (60 * Second) None
                emptyRedis None ErrorDisabled) as (Habsent & _ & _).
    apply Habsent. reflexivity.
  - destruct (GetSession_absent_or_failed downStorage emptyWorld "abc" (60 * Second) None
                mkDownRedis None (RedisError "dial tcp: connection refused"))
      as (_ & Hio & _).
    apply Hio. reflexivity.
  - destruct (GetSession_absent_or_failed garbageStorage emptyWorld "abc" (60 * Second) None
                (redis garbageStorage) (Some "{"%string) (JsonError "invalid JSON input"))
      as (_ & _ & Hdecode).
    apply Hdecode.
    + vm_compute. reflexivity.
    + discriminate.
    + vm_compute. reflexivity.
Defined.

Lemma GetSession_null_payload_witness :
  (GetSession savedNilStorage emptyWorld "abc" (60 * Second) (Some 1%positive)).2 = (None, None) ∧
  heap (GetSession savedNilStorage emptyWorld "abc" (60 * Second) (Some 1%positive)).1.2
    = heap emptyWorld.
Proof.
  apply (GetSession_null_payload savedNilStorage emptyWorld "abc" (60 * Second) (Some 1%positive)
           (redis savedNilStorage) (Some "null"%string) EmptyString).
  - vm_compute. reflexivity.
  - vm_compute. reflexivity.
  - reflexivity.
Defined.

Lemma GetSession_replaces_in_place_witness :
  (GetSession savedStorage staleWorld "abc" (60 * Second) (Some 1%positive)).2
    = (Some 1%positive, None) ∧
  heap (GetSession savedStorage staleWorld "abc" (60 * Second) (Some 1%positive)).1.2
    = <[1%positive := sampleMap]> (heap staleWorld) ∧
  dom (heap (GetSession savedStorage staleWorld "abc" (60 * Second) (Some 1%positive)).1.2)
    = dom (heap staleWorld).
Proof.
  apply (GetSession_replaces_in_place savedStorage staleWorld "abc" (60 * Second) 1%positive
           {["stale"%string := json.VNull]} (redis savedStorage)
           (Some (json.print (json.VMap sampleMap)))).
  - vm_compute. reflexivity.
  - vm_compute. reflexivity.
  - vm_compute. reflexivity.
Defined.

(** ** The JSON encoding round trip *)

Section json_facts.
Import json.
Local Open Scope string_scope.
Local Arguments String.append !_ _ / : simpl nomatch.

Lemma closing_cases (s : string) :
  closing s = true →
  s = "" ∨ ∃ s', s = String "," s' ∨ s = String "]" s' ∨ s = String "}" s'.
Proof.
  destruct s as [|c s']; [by left|]. simpl. intros H. right. exists s'.
  destruct (Ascii.eqb_spec c ","); [subst; by left|].
  destruct (Ascii.eqb_spec c "]"); [subst; right; by left|].
  destruct (Ascii.eqb_spec c "}"); [subst; right; by right|].
  discriminate H.
Qed.

Ltac closing_split H :=
  apply closing_cases in H as [->|[? [->|[->| ->]]]].

Lemma string_app_assoc' (a b c : string) : (a +:+ b) +:+ c = a +:+ (b +:+ c).
Proof. induction a as [|x a IH]; simpl; [done|]. by rewrite IH. Qed.

Lemma string_app_length (a b : string) :
  String.length (a +:+ b) = (String.length a + String.length b)%nat.
Proof. induction a as [|x a IH]; simpl; [done|]. by rewrite IH. Qed.

Lemma scan_digits_closing (rest : string) :
  closing rest = true → scan_digits rest = (Nil, rest).
Proof. intros H. by closing_split H. Qed.

Lemma scan_digits_print (u : Decimal.uint) (rest : string) :
  scan_digits rest = (Nil, rest) →
  scan_digits (NilEmpty.string_of_uint u +:+ rest) = (u, rest).
Proof. intros H. induction u; simpl; rewrite ?IHu; done. Qed.

Lemma nzhead_not_D0 (u u' : Decimal.uint) : nzhead u ≠ D0 u'.
Proof. induction u; simpl; congruence. Qed.

Lemma unorm_shape (u : Decimal.uint) :
  unorm u = D0 Nil ∨ (unorm u ≠ Nil ∧ ∀ u', unorm u ≠ D0 u').
Proof.
  unfold unorm. destruct (nzhead u) eqn:E; try (right; split; congruence).
  - by left.
  - by apply nzhead_not_D0 in E.
Qed.

Lemma to_uint_unorm (n : N) : N.to_uint n = unorm (N.to_uint n).
Proof.
  rewrite <- (DecimalN.Unsigned.to_of (N.to_uint n)).
  by rewrite DecimalN.Unsigned.of_to.
Qed.

Lemma to_uint_shape (n : N) :
  (N.to_uint n = D0 Nil ∧ n = 0%N) ∨
  (N.to_uint n ≠ Nil ∧ ∀ u', N.to_uint n ≠ D0 u').
Proof.
  destruct (unorm_shape (N.to_uint n)) as [H|H]; rewrite <- to_uint_unorm in H.
  - left. split; [done|]. rewrite <- (DecimalN.Unsigned.of_to n), H. reflexivity.
  - by right.
Qed.

Lemma to_uint_not_Nil (n : N) : N.to_uint n ≠ Nil.
Proof. destruct (to_uint_shape n) as [[H _]|[H _]]; congruence. Qed.

Lemma digits_head (u : Decimal.uint) :
  u ≠ Nil →
  ∃ c t, NilEmpty.string_of_uint u = String c t ∧
         Ascii.eqb c "-" = false ∧ Ascii.eqb c "+" = false.
Proof. destruct u; [done|..]; intros _; simpl; eauto. Qed.

Lemma scan_integer_print (n : N) (rest : string) :
  scan_digits rest = (Nil, rest) →
  scan_integer (NilEmpty.string_of_uint (N.to_uint n) +:+ rest) = Some (n, rest).
Proof.
  intros H. unfold scan_integer. rewrite scan_digits_print by done.
  destruct (to_uint_shape n) as [[E ->]|[Hnil H0]].
  - by rewrite E.
  - rewrite <- (DecimalN.Unsigned.of_to n) at 2.
    destruct (N.to_uint n) as [|u|u|u|u|u|u|u|u|u|u]; try done.
    by destruct (H0 u).
Qed.

Lemma scan_exponent_print (e : option Z) (rest : string) :
  closing rest = true →
  scan_exponent (exponent_string e +:+ rest) = Some (e, rest).
Proof.
  intros H. destruct e as [z|]; simpl.
  - unfold print_int.
    pose proof (to_uint_not_Nil (Z.abs_N z)) as Hnil.
    pose proof (DecimalN.Unsigned.of_to (Z.abs_N z)) as Hof.
    pose proof (scan_digits_print (N.to_uint (Z.abs_N z)) rest (scan_digits_closing _ H)) as Hscan.
    destruct (Z.ltb_spec z 0) as [Hz|Hz]; simpl.
    + unfold scan_exponent_digits. rewrite Hscan.
      destruct (N.to_uint (Z.abs_N z)); try done; rewrite Hof; do 3 f_equal; lia.
    + destruct (digits_head _ Hnil) as (c & t & Hc & Hm & Hp).
      rewrite Hc. simpl. rewrite Hm, Hp.
      change (String c (t +:+ rest)) with (String c t +:+ rest). rewrite <- Hc.
      unfold scan_exponent_digits. rewrite Hscan.
      destruct (N.to_uint (Z.abs_N z)); try done; rewrite Hof; do 3 f_equal; lia.
  - by closing_split H.
Qed.

Lemma exponent_string_head (e : option Z) (rest : string) :
  closing rest = true →
  scan_digits (exponent_string e +:+ rest) = (Nil, exponent_string e +:+ rest) ∧
  scan_fraction (exponent_string e +:+ rest) = Some (Nil, exponent_string e +:+ rest).
Proof.
  intros H. destruct e as [z|]; simpl; [done|]. by closing_split H.
Qed.

Lemma scan_fraction_print (f : Decimal.uint) (tail : string) :
  scan_digits tail = (Nil, tail) →
  scan_fraction tail = Some (Nil, tail) →
  scan_fraction (fraction_string f +:+ tail) = Some (f, tail).
Proof.
  intros Hd Hf.
  destruct f; simpl; [done|..]; rewrite scan_digits_print by done; done.
Qed.

Lemma parse_number_print (n : Number) (rest : string) :
  closing rest = true →
  parse_number (print_number n +:+ rest) = Some (n, rest).
Proof.
  intros H. unfold print_number. rewrite !string_app_assoc'.
  destruct (exponent_string_head (exponent n) rest H) as [Hd Hf].
  assert (Hint : scan_integer
            (NilEmpty.string_of_uint (N.to_uint (integer n)) +:+
             fraction_string (fraction n) +:+ exponent_string (exponent n) +:+ rest)
          = Some (integer n, fraction_string (fraction n) +:+ exponent_string (exponent n) +:+ rest)).
  { apply scan_integer_print.
    destruct (fraction n); simpl; done. }
  unfold parse_number. destruct n as [neg i f e]. simpl in *.
  destruct neg; simpl.
  - rewrite Hint. simpl. rewrite scan_fraction_print by done. simpl.
    by rewrite scan_exponent_print.
  - destruct (digits_head _ (to_uint_not_Nil i)) as (c & t & Hc & Hm & Hp).
    rewrite Hc. simpl. rewrite Hm.
    match goal with
    | |- context [String c (t +:+ ?x)] => change (String c (t +:+ x)) with (String c t +:+ x)
    end.
    rewrite <- Hc.
    rewrite Hint. simpl. rewrite scan_fraction_print by done. simpl.
    by rewrite scan_exponent_print.
Qed.

Lemma parse_escape_char (c : ascii) (tail : string) :
  parse_string_body (escape_char c +:+ tail) =
    '(x, rest) ← parse_string_body tail; Some (String c x, rest).
Proof. destruct c as [[] [] [] [] [] [] [] []]; reflexivity. Qed.

Lemma parse_string_print (s rest : string) :
  parse_string_body (escape s +:+ String quote rest) = Some (s, rest).
Proof.
  induction s as [|c s IH].
  - reflexivity.
  - cbn [escape]. rewrite string_app_assoc', parse_escape_char, IH. reflexivity.
Qed.

Lemma foldl_insert_member (L : list (string * Value)) (m0 : gmap string Value) :
  foldl insert_member m0 L = list_to_map (reverse L) ∪ m0.
Proof.
  revert m0. induction L as [|[k v] L IH]; intros m0; simpl.
  - by rewrite (left_id_L ∅ (∪)).
  - rewrite IH, reverse_cons, list_to_map_app. simpl.
    unfold insert_member. simpl.
    rewrite <- (assoc_L (∪)). f_equal.
    by rewrite <- insert_union_l, (left_id_L ∅ (∪)).
Qed.

Lemma foldl_insert_map_to_list (m : gmap string Value) :
  foldl insert_member ∅ (map_to_list m) = m.
Proof.
  rewrite foldl_insert_member, (right_id_L ∅ (∪)).
  rewrite <- (list_to_map_to_list m) at 2.
  symmetry. apply list_to_map_proper.
  - apply NoDup_fst_map_to_list.
  - by rewrite reverse_Permutation.
Qed.

Lemma print_VMap (m : gmap string Value) :
  print (VMap m) = "{" +:+ join (member_string <$> map_to_list m) +:+ "}".
Proof.
  cbn [print]. rewrite map_fold_foldr.
  assert (E : ∀ L : list (string * Value),
            foldr (uncurry (λ k x acc, print_member k (print x) :: acc)) [] L
            = member_string <$> L).
  { induction L as [|[k x] L IH]; [done|]. cbn [foldr uncurry]. by rewrite IH. }
  by rewrite E.
Qed.

Lemma print_VList (l : list Value) :
  print (VList l) = "[" +:+ join (print <$> l) +:+ "]".
Proof. reflexivity. Qed.

Lemma vsize_elem (x : Value) (l : list Value) :
  x ∈ l → (vsize x < vsize (VList l))%nat.
Proof.
  cbn [vsize]. induction 1 as [x l|x y l _ IH]; cbn [foldr]; lia.
Qed.

Lemma vsize_lookup (k : string) (x : Value) (m : gmap string Value) :
  (k, x) ∈ map_to_list m → (vsize x < vsize (VMap m))%nat.
Proof.
  cbn [vsize]. rewrite map_fold_foldr. generalize (map_to_list m). intros L HL.
  assert (H : ∀ kx : string * Value, kx ∈ L →
            (vsize kx.2 < S (foldr (uncurry (λ _ x n, vsize x + n)%nat) 0%nat L))%nat).
  { clear. intros kx Hin. induction Hin as [[k1 x1] ?|[k1 x1] [k2 x2] ? ? IH]; simpl in *; lia. }
  apply (H (k, x) HL).
Qed.

Lemma print_number_head (n : Number) :
  ∃ c t, print_number n = String c t ∧ value_head c ∧
         Ascii.eqb c "n" = false ∧ Ascii.eqb c "t" = false ∧ Ascii.eqb c "f" = false ∧
         Ascii.eqb c quote = false ∧ Ascii.eqb c "[" = false ∧ Ascii.eqb c "{" = false.
Proof.
  unfold print_number, value_head. destruct (negative n); simpl.
  - eexists _, _. split; [reflexivity|]. by split_and!.
  - pose proof (to_uint_not_Nil (integer n)) as H.
    destruct (N.to_uint (integer n)); [done|..]; simpl;
      (eexists _, _; split; [reflexivity|]; by split_and!).
Qed.

Lemma print_head (v : Value) :
  ∃ c t, print v = String c t ∧ value_head c.
Proof.
  destruct v as [|[]|n|s|l|m]; try (by eexists _, _; split; [reflexivity|]).
  destruct (print_number_head n) as (c & t & E & H & _). by exists c, t.
Qed.

Lemma skip_space_head (c : ascii) (t : string) :
  is_space c = false → skip_space (String c t) = String c t.
Proof. intros H. simpl. by rewrite H. Qed.

Lemma join_cons2 (a b : string) (L : list string) :
  join (a :: b :: L) = a +:+ "," +:+ join (b :: L).
Proof. reflexivity. Qed.

Lemma parse_elements_print (l : list Value) :
  l ≠ [] → Forall parses l →
  ∀ rest fuel, (S (String.length (join (print <$> l))) < fuel)%nat →
    parse_elements fuel (join (print <$> l) +:+ String "]" rest) = Some (l, rest).
Proof.
  induction l as [|x l IH]; [done|]. intros _ Hall rest fuel Hfuel.
  apply Forall_cons in Hall as [Hx Hall].
  destruct fuel as [|fuel]; [lia|].
  destruct l as [|y l].
  - simpl in *. rewrite Hx by (done || lia). by simpl.
  - rewrite !fmap_cons, join_cons2, <- !fmap_cons in *.
    rewrite !string_app_assoc'. rewrite !string_app_length in Hfuel.
    cbn [parse_elements]. rewrite Hx by (done || lia).
    simpl. rewrite IH; [done|done|done|].
    change (String.length ",") with 1%nat in Hfuel. lia.
Qed.

Lemma member_string_app (k : string) (x : Value) (tail : string) :
  member_string (k, x) +:+ tail =
    String quote (escape k +:+ String quote (String ":" (print x +:+ tail))).
Proof.
  unfold member_string, print_member, print_string. simpl.
  by rewrite !string_app_assoc'.
Qed.

Lemma member_string_length (k : string) (x : Value) :
  (String.length (print x) + 3 <= String.length (member_string (k, x)))%nat.
Proof.
  unfold member_string, print_member, print_string. simpl.
  rewrite !string_app_length. simpl. lia.
Qed.

Lemma parse_members_print (L : list (string * Value)) :
  L ≠ [] → Forall (λ kx, parses kx.2) L →
  ∀ rest fuel, (S (String.length (join (member_string <$> L))) < fuel)%nat →
    parse_members fuel (join (member_string <$> L) +:+ String "}" rest) = Some (L, rest).
Proof.
  induction L as [|[k x] L IH]; [done|]. intros _ Hall rest fuel Hfuel.
  apply Forall_cons in Hall as [Hx Hall]. simpl in Hx.
  destruct fuel as [|fuel]; [lia|].
  pose proof (member_string_length k x) as Hlen.
  destruct L as [|kx' L].
  - cbn [fmap list_fmap join] in *. rewrite member_string_app.
    cbn [parse_members]. simpl. rewrite parse_string_print. simpl.
    rewrite Hx by (done || lia). by simpl.
  - rewrite !fmap_cons, join_cons2, <- !fmap_cons in *.
    rewrite string_app_length in Hfuel.
    change (String.length ("," +:+ ?s)) with (S (String.length s)) in Hfuel.
    rewrite string_app_assoc', member_string_app.
    cbn [parse_members]. simpl. rewrite parse_string_print. simpl.
    rewrite Hx by (done || lia). simpl.
    rewrite IH; [done|done|done|]. lia.
Qed.

(** Decoding what [print] wrote gives the value back, whatever follows
    it in a list or an object, once the fuel exceeds the length of the
    text. *)
Lemma parse_value_print_sized (n : nat) :
  ∀ v, (vsize v < n)%nat → parses v.
Proof.
  induction n as [|n IH]; intros v Hsize; [lia|].
  intros rest fuel Hrest Hfuel.
  destruct fuel as [|fuel]; [lia|].
  destruct v as [|b|num|s|l|m].
  - reflexivity.
  - by destruct b.
  - destruct (print_number_head num) as (c & t & E & (Hsp & _) & Hn & Ht & Hf & Hq & Hl & Hm).
    cbn [print parse_value]. rewrite E. cbn [String.append].
    rewrite skip_space_head by done. rewrite Hn, Ht, Hf, Hq, Hl, Hm.
    change (String c (t +:+ rest)) with (String c t +:+ rest). rewrite <- E.
    by rewrite parse_number_print.
  - cbn [print parse_value]. unfold print_string. simpl.
    rewrite string_app_assoc'. simpl. by rewrite parse_string_print.
  - rewrite print_VList in *. rewrite !string_app_assoc'.
    assert (Hfuel' : (S (String.length (join (print <$> l))) < fuel)%nat).
    { cbn [String.append String.length] in Hfuel.
      rewrite string_app_length in Hfuel. cbn [String.length] in Hfuel. lia. }
    cbn [parse_value]. simpl.
    destruct l as [|x l]; [reflexivity|].
    destruct (print_head x) as (c & t & E & Hsp & Hcl & _).
    assert (Hj : ∃ t', join (print <$> x :: l) = String c t').
    { destruct l; simpl; rewrite E; simpl; eauto. }
    destruct Hj as [t' Hj]. rewrite Hj. simpl. rewrite Hsp, Hcl.
    change (String c (t' +:+ ?z)) with (String c t' +:+ z). rewrite <- Hj.
    rewrite parse_elements_print; [done|done| |].
    + apply Forall_forall. intros y Hy. apply IH.
      apply vsize_elem in Hy. lia.
    + done.
  - rewrite print_VMap in *. rewrite !string_app_assoc'.
    assert (Hfuel' : (S (String.length (join (member_string <$> map_to_list m))) < fuel)%nat).
    { cbn [String.append String.length] in Hfuel.
      rewrite string_app_length in Hfuel. cbn [String.length] in Hfuel. lia. }
    cbn [parse_value]. simpl.
    rewrite <- (foldl_insert_map_to_list m) at 2.
    pose proof (vsize_lookup) as Hlook.
    assert (Hall : Forall (λ kx : string * Value, parses kx.2) (map_to_list m)).
    { apply Forall_forall. intros [k x] Hkx. apply IH.
      apply vsize_lookup in Hkx. simpl. lia. }
    destruct (map_to_list m) as [|[k x] L] eqn:EL; [reflexivity|].
    assert (Hj : ∃ t', join (member_string <$> (k, x) :: L) = String quote t').
    { destruct L; simpl; eauto. }
    destruct Hj as [t' Hj]. rewrite Hj. simpl.
    change (String quote (t' +:+ ?z)) with (String quote t' +:+ z). rewrite <- Hj.
    by rewrite parse_members_print.
Qed.

Theorem parse_value_print (v : Value) (rest : string) (fuel : nat) :
  closing rest = true → (String.length (print v) < fuel)%nat →
  parse_value fuel (print v +:+ rest) = Some (v, rest).
Proof. apply (parse_value_print_sized (S (vsize v))). lia. Qed.

(** Encoding a session map and decoding the text gives the map back. *)
Lemma UnmarshalUseNumber_Marshal (m : gmap string Value) :
  UnmarshalUseNumber (Marshal (Some m)).1 = (Some m, None).
Proof.
  unfold UnmarshalUseNumber, Marshal. cbn [fst].
  pose proof (parse_value_print (VMap m) "" (S (String.length (print (VMap m))))
                eq_refl ltac:(lia)) as H.
  assert (E : ∀ a : string, a +:+ "" = a).
  { induction a as [|c a IH]; simpl; [done|]. by rewrite IH. }
  rewrite E in H. by rewrite H.
Qed.

Lemma Marshal_not_empty (m : gmap string Value) : (Marshal (Some m)).1 ≠ "".
Proof. unfold Marshal. cbn [fst]. by rewrite print_VMap. Qed.

End json_facts.

(** ** Saving and loading on a store *)

(** C4.  On a store that keeps what it is given until it expires: a save
    of a session map with a TTL of at least one second succeeds, and the
    load that follows it, with no map passed in, succeeds and returns a new
    map object that holds exactly the saved map: the same keys with the
    same values, the numbers with every digit they were written with. *)
Theorem SetSession_GetSession_roundtrip (s : StorageRedis MemRedis) (w : World)
    (sessionId : string) (M : gmap string json.Value) (ttl : Duration) :
  Second <= ttl →
  let saved := SetSession s w sessionId (Some M) ttl in
  let loaded := GetSession saved.1.1 saved.1.2 sessionId ttl None in
  saved.2 = None ∧
  ∃ l, loaded.2 = (Some l, None) ∧
       heap loaded.1.2 !! l = Some M ∧
       heap w !! l = None.
Proof.
  intros Httl saved loaded.
  pose proof (ttlSeconds_ge_1 ttl Httl) as Hsec.
  pose proof (UnmarshalUseNumber_Marshal M) as Hdec.
  set (content := (Marshal (Some M)).1) in *.
  set (key := sessionIdToRedisKey s sessionId).
  set (r1 := mkMemRedis (now (redis s))
               (<[key := (content, now (redis s) + ttlSeconds ttl)]> (table (redis s)))).
  assert (Hsaved : saved =
            (mkStorageRedis r1 (prefix s) (updatingIdMap s),
             mkWorld (heap w)
               (sent w ++ [("SETEX"%string,
                            [ArgString key; ArgInt (ttlSeconds ttl); ArgBytes content])])
               (intlog w),
             None)).
  { subst saved. unfold SetSession, redis_Do, Do, MemRedis_client, MemRedis_Do.
    cbn [Marshal]. fold key. simpl.
    destruct (Z.leb_spec (ttlSeconds ttl) 0); [lia|]. reflexivity. }
  split; [by rewrite Hsaved|].
  subst loaded. rewrite Hsaved. cbn [fst snd].
  destruct (GetSession_allocates (mkStorageRedis r1 (prefix s) (updatingIdMap s))
              (mkWorld (heap w)
                 (sent w ++ [("SETEX"%string,
                              [ArgString key; ArgInt (ttlSeconds ttl); ArgBytes content])])
                 (intlog w))
              sessionId ttl r1 (Some content) M) as (l & Hfresh & Hres & Hheap).
  - unfold Do, MemRedis_client, MemRedis_Do, sessionIdToRedisKey, live. simpl.
    fold (sessionIdToRedisKey s sessionId). fold key.
    rewrite lookup_insert_eq.
    destruct (Z.ltb_spec (now (redis s)) (now (redis s) + ttlSeconds ttl)); [done|lia].
  - exact Hdec.
  - exists l. split_and!; [done| |done].
    rewrite Hheap. apply lookup_insert_eq.
Qed.

Lemma SetSession_GetSession_roundtrip_witness :
  (SetSession newStorage emptyWorld "abc" (Some sampleMap) (60 * Second)).2 = None ∧
  ∃ l, (GetSession savedStorage
          (SetSession newStorage emptyWorld "abc" (Some sampleMap) (60 * Second)).1.2
          "abc" (60 * Second) None).2 = (Some l, None) ∧
       heap (GetSession savedStorage
               (SetSession newStorage emptyWorld "abc" (Some sampleMap) (60 * Second)).1.2
               "abc" (60 * Second) None).1.2 !! l = Some sampleMap ∧
       heap emptyWorld !! l = None.
Proof.
  apply (SetSession_GetSession_roundtrip newStorage emptyWorld "abc" sampleMap (60 * Second)).
  vm_compute. discriminate.
Defined.

(** Below one second the save itself is refused by the store: the TTL
    converts to 0 seconds. *)
Example SetSession_subsecond_refused :
  (SetSession newStorage emptyWorld "abc" (Some sampleMap) 999999999).2
    = Some (RedisError "ERR invalid expire time in 'setex' command").
Proof. vm_compute. reflexivity. Qed.

(** ** More of the storage: keys, construction, frames *)

Section More_facts.
Context {R : Type} `{!RedisClient R}.
Implicit Types (s : StorageRedis R) (w : World) (sessionId : string) (ttl : Duration).

(** X1.  Under one prefix, two session ids with the same Redis key are the
    same id: sessions never share a record. *)
Theorem sessionIdToRedisKey_inj s (a b : string) :
  sessionIdToRedisKey s a = sessionIdToRedisKey s b ↔ a = b.
Proof.
  split; [|by intros ->]. unfold sessionIdToRedisKey. apply String.app_inj.
Qed.

(** A run of the loop on a set with nothing queued. *)
Lemma timer_callback_nothing_queued (choices : list nat) s w :
  updatingIdMap s = ∅ → timer_callback choices s w = Some (s, w).
Proof.
  intros Hm. unfold timer_callback. destruct s as [r p m]. simpl in *. subst m.
  by rewrite map_size_empty, Pop_empty.
Qed.

(** X2.  A storage is created for every client that is not nil, and only
    for those.  It keeps the client, takes the first of the prefixes given
    (none, or an empty one, is the empty prefix; further ones are ignored),
    and has nothing queued: a first run of its timer issues no command. *)
Theorem NewStorageRedis_fresh (client : option R) (prefixes : list string)
    (choices : list nat) w :
  match client with
  | None => NewStorageRedis client prefixes = None
  | Some r =>
      ∃ s, NewStorageRedis client prefixes = Some s ∧
           redis s = r ∧
           prefix s = hd EmptyString prefixes ∧
           updatingIdMap s = ∅ ∧
           timer_callback choices s w = Some (s, w)
  end.
Proof.
  destruct client as [r|]; [|done]. eexists. split; [reflexivity|].
  cbn [redis prefix updatingIdMap]. split; [done|]. split.
  { destruct prefixes as [|p ps]; [done|]. simpl. by case_decide. }
  split; [done|]. by apply timer_callback_nothing_queued.
Qed.

(** X3.  A touch changes at most the entry of its own id: the entries of
    the other ids, the client and the prefix stay as they were. *)
Theorem UpdateTTL_frame s sessionId ttl (other : string) :
  other ≠ sessionId →
  updatingIdMap (UpdateTTL s sessionId ttl).1 !! other = updatingIdMap s !! other ∧
  redis (UpdateTTL s sessionId ttl).1 = redis s ∧
  prefix (UpdateTTL s sessionId ttl).1 = prefix s.
Proof.
  intros Hne. unfold UpdateTTL, StrIntMap_Set. case_decide; simpl; [|done].
  by rewrite lookup_insert_ne.
Qed.

(** X4.  Touches of two different ids commute: the set they leave does
    not depend on which came first. *)
Theorem UpdateTTL_comm s (a b : string) (ta tb : Duration) :
  a ≠ b →
  (UpdateTTL (UpdateTTL s a ta).1 b tb).1 = (UpdateTTL (UpdateTTL s b tb).1 a ta).1.
Proof.
  intros Hne. unfold UpdateTTL, StrIntMap_Set.
  repeat case_decide; simpl; try done.
  by rewrite insert_insert_ne.
Qed.

(** The loop on any set, the empty session id queued or not: it returns;
    it issues the [EXPIRE] of the entries it handed out before it stopped,
    each once and none for the empty id; an entry it did not hand out is
    still queued as it was; and the empty id is queued no more. *)
Lemma timer_loop_runs (fuel : nat) :
  ∀ (choices : list nat) s w,
    (size (updatingIdMap s) < fuel)%nat →
    ∃ entries m',
      timer_loop fuel choices s w =
        (let cmds := expire_command s <$> entries in
         let '(r, errs) := run_commands (redis s) cmds in
         Some (mkStorageRedis r (prefix s) m',
               mkWorld (heap w) (sent w ++ cmds) (intlog w ++ errs))) ∧
      NoDup entries.*1 ∧
      (∀ k v, (k, v) ∈ entries → k ≠ EmptyString ∧ updatingIdMap s !! k = Some v) ∧
      (∀ k, k ∈ entries.*1 → m' !! k = None) ∧
      (∀ k, k ≠ EmptyString → k ∉ entries.*1 → m' !! k = updatingIdMap s !! k) ∧
      m' !! EmptyString = None.
Proof.
  induction fuel as [|fuel IH]; intros choices s w Hsize; [lia|].
  destruct s as [r p m]. simpl in *.
  destruct (decide (m = ∅)) as [->|Hne].
  { exists [], ∅. rewrite Pop_empty. simpl. rewrite !app_nil_r.
    split_and!;
      first [ by destruct w | by constructor
            | by (intros k v Hin; apply elem_of_nil in Hin)
            | by (intros k Hin; apply elem_of_nil in Hin)
            | done ]. }
  destruct (Pop_entry (hd 0%nat choices) m Hne) as (k & v & Hkv & HPop).
  rewrite HPop.
  destruct (decide (k = EmptyString)) as [->|Hk].
  { exists [], (delete EmptyString m). simpl. rewrite !app_nil_r.
    split_and!;
      first [ by destruct w | by constructor
            | by (intros k v' Hin; apply elem_of_nil in Hin)
            | by (intros k Hin; apply elem_of_nil in Hin)
            | by (intros k Hk _; rewrite lookup_delete_ne)
            | apply lookup_delete_eq ]. }
  unfold doUpdateTTL, redis_Do, sessionIdToRedisKey. simpl.
  destruct (Do r "EXPIRE" [ArgString (p +:+ k); ArgInt v]) as [[r1 v1] err1] eqn:HDo.
  set (w1 := match err1 with
             | Some e => intlog_Errorf (mkWorld (heap w) (sent w ++ [("EXPIRE"%string, [ArgString (p +:+ k); ArgInt v])]) (intlog w)) e
             | None => mkWorld (heap w) (sent w ++ [("EXPIRE"%string, [ArgString (p +:+ k); ArgInt v])]) (intlog w)
             end).
  destruct (IH (tl choices) (mkStorageRedis r1 p (delete k m)) w1)
    as (entries & m' & Hloop & Hnd & Hin & Hout & Hkeep & Hempty).
  { simpl. rewrite map_size_delete, Hkv.
    assert (size m ≠ 0%nat) by by apply map_size_non_empty_iff. lia. }
  simpl in *.
  assert (Hfresh : k ∉ entries.*1).
  { intros Hel. apply list_elem_of_fmap in Hel as ([k' v'] & -> & Hel).
    apply Hin in Hel as [_ Hel]. simpl in Hel. by rewrite lookup_delete_eq in Hel. }
  exists ((k, v) :: entries), m'. split_and!.
  - rewrite Hloop. rewrite fmap_cons.
    unfold expire_command, sessionIdToRedisKey. simpl. rewrite HDo.
    destruct (run_commands r1 _) as [r2 errs].
    f_equal. f_equal. subst w1.
    destruct err1; simpl; by rewrite <- !app_assoc.
  - simpl. by constructor.
  - intros k' v' Hel. apply elem_of_cons in Hel as [Heq|Hel].
    + by simplify_eq.
    + apply Hin in Hel as [Hk' Hel]. split; [done|].
      destruct (decide (k' = k)) as [->|Hne'].
      * by rewrite lookup_delete_eq in Hel.
      * by rewrite lookup_delete_ne in Hel.
  - intros k' Hel. simpl in Hel. apply elem_of_cons in Hel as [->|Hel].
    + rewrite Hkeep by done. apply lookup_delete_eq.
    + by apply Hout.
  - intros k' Hk' Hel. simpl in Hel. apply not_elem_of_cons in Hel as [Hne' Hel].
    rewrite Hkeep by done. by apply lookup_delete_ne.
  - done.
Qed.

(** X5.  No renewal is lost, whatever is queued and in whatever order
    entries are handed out: one run of the timer callback returns, and for
    every entry with a non-empty id either the entry is still queued as it
    was or its [EXPIRE] was issued, once, and the entry is gone.  No
    [EXPIRE] is issued for the empty id or for an id that was not queued,
    the empty id is queued no more, and no map object is touched. *)
Theorem timer_callback_loses_no_renewal (choices : list nat) s w :
  ∃ s' w' entries,
    timer_callback choices s w = Some (s', w') ∧
    sent w' = sent w ++ (expire_command s <$> entries) ∧
    NoDup entries.*1 ∧
    (∀ k v, (k, v) ∈ entries → k ≠ EmptyString ∧ updatingIdMap s !! k = Some v) ∧
    (∀ k v, k ≠ EmptyString → updatingIdMap s !! k = Some v →
       updatingIdMap s' !! k = Some v ∨
       ((k, v) ∈ entries ∧ updatingIdMap s' !! k = None)) ∧
    updatingIdMap s' !! EmptyString = None ∧
    heap w' = heap w ∧ prefix s' = prefix s.
Proof.
  unfold timer_callback.
  destruct (timer_loop_runs (S (size (updatingIdMap s))) choices s w)
    as (entries & m' & Hloop & Hnd & Hin & Hout & Hkeep & Hempty); [lia|].
  cbv zeta in Hloop.
  destruct (run_commands (redis s) (expire_command s <$> entries)) as [r errs].
  eexists _, _, entries. split; [exact Hloop|]. simpl.
  split_and!; try done.
  intros k v Hk Hkv.
  destruct (decide (k ∈ entries.*1)) as [Hel|Hel].
  - right. split; [|by apply Hout].
    apply list_elem_of_fmap in Hel as ([k' v'] & -> & Hel).
    destruct (Hin _ _ Hel) as [_ Hv']. simpl in *. by simplify_eq.
  - left. by rewrite Hkeep.
Qed.

(** X6.  Whatever is queued, two runs of the timer callback in a row
    leave the set empty: an entry under the empty id holds the others back
    for one run at most. *)
Theorem timer_callback_twice (c1 c2 : list nat) s w s1 w1 s2 w2 :
  timer_callback c1 s w = Some (s1, w1) →
  timer_callback c2 s1 w1 = Some (s2, w2) →
  updatingIdMap s2 = ∅.
Proof.
  intros H1 H2. unfold timer_callback in *.
  destruct (timer_loop_runs (S (size (updatingIdMap s))) c1 s w)
    as (entries & m' & Hloop & _ & _ & _ & _ & Hempty); [lia|].
  cbv zeta in Hloop.
  destruct (run_commands (redis s) (expire_command s <$> entries)) as [r errs].
  rewrite Hloop in H1. simplify_eq.
  destruct (timer_loop_drains (S (size m')) c2 (mkStorageRedis r (prefix s) m')
              (mkWorld (heap w) (sent w ++ (expire_command s <$> entries)) (intlog w ++ errs)))
    as (entries2 & _ & Hloop2); [done|simpl; lia|].
  simpl in *. rewrite Hloop2 in H2.
  destruct (run_commands r _) as [r2 errs2]. by simplify_eq.
Qed.

(** X7.  A touch on a set with nothing queued, then a run of the timer
    callback: when the id is not empty and the TTL is at least the flush
    interval, the run issues one command, the [EXPIRE] of that id's key
    with the seconds of the TTL, logs its error if it has one, and leaves
    the set empty. *)
Theorem UpdateTTL_then_timer_callback (choices : list nat) s w sessionId ttl :
  updatingIdMap s = ∅ →
  sessionId ≠ EmptyString →
  DefaultStorageRedisLoopInterval <= ttl →
  let command := ("EXPIRE"%string,
                  [ArgString (sessionIdToRedisKey s sessionId); ArgInt (ttlSeconds ttl)]) in
  let '(r, _, err) := Do (redis s) command.1 command.2 in
  timer_callback choices (UpdateTTL s sessionId ttl).1 w =
    Some (mkStorageRedis r (prefix s) ∅,
          mkWorld (heap w) (sent w ++ [command])
            (intlog w ++ match err with Some e => [e] | None => [] end)).
Proof.
  intros Hm Hid Httl command. subst command. cbn [fst snd].
  rewrite UpdateTTL_queued by done. rewrite Hm. cbn [fst].
  unfold timer_callback.
  destruct (timer_loop_drains
              (S (size (updatingIdMap (mkStorageRedis (redis s) (prefix s)
                                         (<[sessionId := ttlSeconds ttl]> ∅)))))
              choices
              (mkStorageRedis (redis s) (prefix s) (<[sessionId := ttlSeconds ttl]> ∅)) w)
    as (entries & Hperm & Hloop); [|lia|].
  { simpl. by rewrite lookup_insert_ne. }
  simpl in Hperm. rewrite insert_empty, map_to_list_singleton in Hperm.
  apply Permutation_singleton_r in Hperm. subst entries.
  rewrite Hloop. simpl.
  unfold expire_command, sessionIdToRedisKey. simpl.
  destruct (Do (redis s) "EXPIRE" _) as [[r v] err].
  by destruct err.
Qed.

(** X8.  A load issues one command, the [GET] of the id's key, on every
    path; it never queues or drops a renewal, never changes the prefix and
    never writes to the log. *)
Theorem GetSession_effects s w sessionId ttl data :
  let res := GetSession s w sessionId ttl data in
  sent res.1.2 = sent w ++ [("GET"%string, [ArgString (sessionIdToRedisKey s sessionId)])] ∧
  updatingIdMap res.1.1 = updatingIdMap s ∧
  prefix res.1.1 = prefix s ∧
  intlog res.1.2 = intlog w.
Proof.
  unfold GetSession, redis_Do. cbv zeta.
  destruct (Do (redis s) "GET" _) as [[r v] [e|]]; [done|].
  case_decide; [done|].
  destruct (UnmarshalUseNumber (Bytes v)) as [[m|] [e|]]; try done.
  by destruct data.
Qed.

(** X9.  A load that returns no map, for whatever reason (no record, an
    error of the store, a payload that does not decode, a [null] payload),
    leaves every map object as it was, the one passed in included. *)
Theorem GetSession_nil_keeps_heap s w sessionId ttl data :
  (GetSession s w sessionId ttl data).2.1 = None →
  heap (GetSession s w sessionId ttl data).1.2 = heap w.
Proof.
  unfold GetSession, redis_Do.
  destruct (Do (redis s) "GET" _) as [[r v] [e|]]; [done|].
  case_decide; [done|].
  destruct (UnmarshalUseNumber (Bytes v)) as [[m|] [e|]]; try done.
  by destruct data.
Qed.

(** X10.  A load with no map passed in that returns a map returns a new
    object: its address was free before, and every object that existed
    keeps its content. *)
Theorem GetSession_nil_data_fresh s w sessionId ttl (l : loc) :
  (GetSession s w sessionId ttl None).2.1 = Some l →
  heap w !! l = None ∧
  is_Some (heap (GetSession s w sessionId ttl None).1.2 !! l) ∧
  ∀ l', is_Some (heap w !! l') →
        heap (GetSession s w sessionId ttl None).1.2 !! l' = heap w !! l'.
Proof.
  unfold GetSession, redis_Do.
  destruct (Do (redis s) "GET" _) as [[r v] [e|]]; [done|].
  case_decide; [done|].
  destruct (UnmarshalUseNumber (Bytes v)) as [[m|] [e|]]; try done.
  simpl. intros [= <-].
  assert (Hfresh : heap w !! fresh (dom (heap w)) = None).
  { apply not_elem_of_dom, is_fresh. }
  split_and!; [done|by rewrite lookup_insert_eq|].
  intros l' [x Hl']. rewrite lookup_insert_ne; [done|]. intros <-. congruence.
Qed.

(** X11.  A save goes to the store directly.  Once the map is encoded, it
    issues one command, the [SETEX] of the id's key with the encoded map,
    and returns the error of that command as it is.  On every path it
    leaves the Pending-Renewal Set, the prefix, the map objects and the
    log as they were. *)
Theorem SetSession_effects s w sessionId data ttl :
  let res := SetSession s w sessionId data ttl in
  let command := ("SETEX"%string,
                  [ArgString (sessionIdToRedisKey s sessionId); ArgInt (ttlSeconds ttl);
                   ArgBytes (Marshal data).1]) in
  (updatingIdMap res.1.1 = updatingIdMap s ∧
   prefix res.1.1 = prefix s ∧
   heap res.1.2 = heap w ∧
   intlog res.1.2 = intlog w) ∧
  ((Marshal data).2 = None →
   sent res.1.2 = sent w ++ [command] ∧
   res.2 = (Do (redis s) command.1 command.2).2 ∧
   redis res.1.1 = (Do (redis s) command.1 command.2).1.1).
Proof.
  unfold SetSession, redis_Do. cbv zeta.
  destruct (Marshal data) as [content [e|]]; simpl.
  - split; [done|]. discriminate.
  - by destruct (Do (redis s) "SETEX" _) as [[r v] err].
Qed.

(** X12.  Removing a session issues one command, the [DEL] of the id's
    key, and returns its error as it is.  It does not look at the
    Pending-Renewal Set: a renewal queued for the id stays queued. *)
Theorem RemoveAll_effects s w sessionId :
  let res := RemoveAll s w sessionId in
  let command := ("DEL"%string, [ArgString (sessionIdToRedisKey s sessionId)]) in
  sent res.1.2 = sent w ++ [command] ∧
  res.2 = (Do (redis s) command.1 command.2).2 ∧
  redis res.1.1 = (Do (redis s) command.1 command.2).1.1 ∧
  updatingIdMap res.1.1 = updatingIdMap s ∧
  prefix res.1.1 = prefix s ∧
  heap res.1.2 = heap w ∧
  intlog res.1.2 = intlog w.
Proof.
  unfold RemoveAll, redis_Do. cbv zeta. simpl.
  by destruct (Do (redis s) "DEL" _) as [[r v] err].
Qed.

(** X13.  A renewal queued for a session outlives the removal of the
    session: after a touch, a removal and a run of the timer callback, the
    store has been sent the [DEL] of the key and then the [EXPIRE] of the
    same key. *)
Theorem RemoveAll_keeps_renewal (choices : list nat) s w sessionId ttl :
  updatingIdMap s = ∅ →
  sessionId ≠ EmptyString →
  DefaultStorageRedisLoopInterval <= ttl →
  let removed := RemoveAll (UpdateTTL s sessionId ttl).1 w sessionId in
  ∃ s' w',
    timer_callback choices removed.1.1 removed.1.2 = Some (s', w') ∧
    sent w' = sent w ++
      [("DEL"%string, [ArgString (sessionIdToRedisKey s sessionId)]);
       ("EXPIRE"%string, [ArgString (sessionIdToRedisKey s sessionId); ArgInt (ttlSeconds ttl)])] ∧
    updatingIdMap s' = ∅.
Proof.
  intros Hm Hid Httl removed. subst removed.
  rewrite UpdateTTL_queued by done. rewrite Hm. cbn [fst].
  unfold RemoveAll, redis_Do, sessionIdToRedisKey. cbn [redis prefix updatingIdMap].
  destruct (Do (redis s) "DEL" _) as [[r1 v1] err1]. cbn [fst snd].
  unfold timer_callback.
  destruct (timer_loop_drains (S (size (<[sessionId := ttlSeconds ttl]> (∅ : gmap string Z))))
              choices
              (mkStorageRedis r1 (prefix s) (<[sessionId := ttlSeconds ttl]> ∅))
              (mkWorld (heap w)
                 (sent w ++ [("DEL"%string, [ArgString (prefix s +:+ sessionId)])]) (intlog w)))
    as (entries & Hperm & Hloop); [|simpl; lia|].
  { simpl. by rewrite lookup_insert_ne. }
  simpl in Hperm. rewrite insert_empty, map_to_list_singleton in Hperm.
  apply Permutation_singleton_r in Hperm. subst entries.
  cbn [updatingIdMap]. rewrite Hloop. simpl.
  unfold expire_command, sessionIdToRedisKey. simpl.
  destruct (Do r1 "EXPIRE" _) as [[r2 v2] err2].
  eexists _, _. split; [reflexivity|]. simpl.
  by rewrite <- app_assoc.
Qed.

(** X14.  No touch queues less than ten seconds, however large the TTL:
    if every queued value is at least 10, it still is after a touch. *)
Theorem UpdateTTL_keeps_minimum s sessionId ttl :
  map_Forall (λ _ v, 10 <= v) (updatingIdMap s) →
  map_Forall (λ _ v, 10 <= v) (updatingIdMap (UpdateTTL s sessionId ttl).1).
Proof.
  intros Hall. unfold UpdateTTL, StrIntMap_Set. case_decide as Httl; simpl; [|done].
  apply map_Forall_insert_2; [|done].
  apply ttlSeconds_lower; [lia|]. exact Httl.
Qed.

(** X15.  When every queued value is at least 10, every command a run of
    the timer callback issues is the [EXPIRE] of a key with at least 10
    seconds and a non-empty id: the flusher never shortens a session to
    nothing. *)
Theorem timer_callback_expire_at_least_10 (choices : list nat) s w s' w' :
  map_Forall (λ _ v, 10 <= v) (updatingIdMap s) →
  timer_callback choices s w = Some (s', w') →
  ∃ cmds,
    sent w' = sent w ++ cmds ∧
    Forall (λ c, ∃ k v, c = ("EXPIRE"%string, [ArgString (prefix s +:+ k); ArgInt v]) ∧
                        k ≠ EmptyString ∧ 10 <= v) cmds.
Proof.
  intros Hall Hrun. unfold timer_callback in Hrun.
  destruct (timer_loop_runs (S (size (updatingIdMap s))) choices s w)
    as (entries & m' & Hloop & _ & Hin & _); [lia|].
  cbv zeta in Hloop. rewrite Hloop in Hrun.
  destruct (run_commands (redis s) (expire_command s <$> entries)) as [r errs].
  simplify_eq. simpl. eexists. split; [reflexivity|].
  apply Forall_fmap, Forall_forall. intros [k v] Hel.
  destruct (Hin _ _ Hel) as [Hk Hkv]. exists k, v. split_and!; [done..|].
  by apply (Hall k v).
Qed.

(** X16.  The seconds of a save at the edges, once the map is encoded: a
    TTL of less than one second in magnitude is sent as 0, and a TTL of at
    least one second is sent as at least 1, however large it is. *)
Theorem SetSession_seconds_edges s w sessionId data ttl :
  (Marshal data).2 = None →
  (Z.abs ttl < Second →
   sent (SetSession s w sessionId data ttl).1.2 =
     sent w ++ [("SETEX"%string,
                 [ArgString (sessionIdToRedisKey s sessionId); ArgInt 0;
                  ArgBytes (Marshal data).1])]) ∧
  (Second <= ttl →
   ∃ seconds, 1 <= seconds ∧
     sent (SetSession s w sessionId data ttl).1.2 =
       sent w ++ [("SETEX"%string,
                   [ArgString (sessionIdToRedisKey s sessionId); ArgInt seconds;
                    ArgBytes (Marshal data).1])]).
Proof.
  intros _. split.
  - intros Hlt. rewrite SetSession_sent, ttlSeconds_truncates.
    + assert (E : ttl ÷ Second = 0).
      { apply Z.quot_small_iff; [discriminate|]. unfold Second in *. lia. }
      by rewrite E.
    + unfold Second in *. lia.
  - intros Hge. exists (ttlSeconds ttl). split; [by apply ttlSeconds_ge_1|].
    apply SetSession_sent.
Qed.

End More_facts.

Lemma UpdateTTL_frame_witness :
  updatingIdMap (UpdateTTL emptyIdStorage "xyz" (30 * Second)).1 !! "abc"%string
    = updatingIdMap emptyIdStorage !! "abc"%string ∧
  redis (UpdateTTL emptyIdStorage "xyz" (30 * Second)).1 = redis emptyIdStorage ∧
  prefix (UpdateTTL emptyIdStorage "xyz" (30 * Second)).1 = prefix emptyIdStorage.
Proof.
  apply (UpdateTTL_frame emptyIdStorage "xyz" (30 * Second) "abc"). discriminate.
Defined.

Lemma UpdateTTL_comm_witness :
  (UpdateTTL (UpdateTTL newStorage "a" (30 * Second)).1 "b" (40 * Second)).1
  = (UpdateTTL (UpdateTTL newStorage "b" (40 * Second)).1 "a" (30 * Second)).1.
Proof.
  apply (UpdateTTL_comm newStorage "a" "b" (30 * Second) (40 * Second)). discriminate.
Defined.

(** With the empty id handed out first, the first run leaves [abc]
    queued and the second run flushes it. *)
Lemma timer_callback_twice_witness :
  timer_callback [1%nat] emptyIdStorage emptyWorld
    = Some (mkStorageRedis emptyRedis EmptyString {["abc"%string := 30]}, emptyWorld) ∧
  updatingIdMap
    (mkStorageRedis emptyRedis EmptyString (∅ : gmap string Z)) = ∅.
Proof.
  split; [vm_compute; reflexivity|].
  apply (timer_callback_twice [1%nat] [] emptyIdStorage emptyWorld
           (mkStorageRedis emptyRedis EmptyString {["abc"%string := 30]}) emptyWorld
           (mkStorageRedis emptyRedis EmptyString ∅)
           (mkWorld ∅ [("EXPIRE"%string, [ArgString "abc"; ArgInt 30])] [])).
  - vm_compute. reflexivity.
  - vm_compute. reflexivity.
Defined.

Lemma UpdateTTL_then_timer_callback_witness :
  timer_callback [] (UpdateTTL newStorage "abc" (30 * Second)).1 emptyWorld =
    Some (mkStorageRedis emptyRedis EmptyString ∅,
          mkWorld ∅ [("EXPIRE"%string, [ArgString "abc"; ArgInt 30])] []).
Proof.
  pose proof (UpdateTTL_then_timer_callback [] newStorage emptyWorld "abc" (30 * Second)
                eq_refl) as H.
  assert (H1 : "abc"%string ≠ EmptyString) by discriminate.
  assert (H2 : DefaultStorageRedisLoopInterval <= 30 * Second) by (vm_compute; discriminate).
  specialize (H H1 H2). vm_compute in H. vm_compute. exact H.
Defined.

Lemma GetSession_nil_keeps_heap_witness :
  heap (GetSession garbageStorage staleWorld "abc" (60 * Second) (Some 1%positive)).1.2
    = heap staleWorld.
Proof.
  apply (GetSession_nil_keeps_heap garbageStorage staleWorld "abc" (60 * Second)
           (Some 1%positive)).
  vm_compute. reflexivity.
Defined.

Lemma GetSession_nil_data_fresh_witness :
  heap staleWorld !! 2%positive = None ∧
  is_Some (heap (GetSession savedStorage staleWorld "abc" (60 * Second) None).1.2
             !! 2%positive) ∧
  ∀ l', is_Some (heap staleWorld !! l') →
        heap (GetSession savedStorage staleWorld "abc" (60 * Second) None).1.2 !! l'
          = heap staleWorld !! l'.
Proof.
  apply (GetSession_nil_data_fresh savedStorage staleWorld "abc" (60 * Second) 2%positive).
  vm_compute. reflexivity.
Defined.

Lemma RemoveAll_keeps_renewal_witness :
  ∃ s' w',
    timer_callback []
      (RemoveAll (UpdateTTL newStorage "abc" (30 * Second)).1 emptyWorld "abc").1.1
      (RemoveAll (UpdateTTL newStorage "abc" (30 * Second)).1 emptyWorld "abc").1.2
      = Some (s', w') ∧
    sent w' = sent emptyWorld ++
      [("DEL"%string, [ArgString (sessionIdToRedisKey newStorage "abc")]);
       ("EXPIRE"%string, [ArgString (sessionIdToRedisKey newStorage "abc");
                          ArgInt (ttlSeconds (30 * Second))])] ∧
    updatingIdMap s' = ∅.
Proof.
  apply (RemoveAll_keeps_renewal [] newStorage emptyWorld "abc" (30 * Second)).
  - reflexivity.
  - discriminate.
  - vm_compute. discriminate.
Defined.

Lemma UpdateTTL_keeps_minimum_witness :
  map_Forall (λ _ v, 10 <= v) (updatingIdMap (UpdateTTL newStorage "abc" (30 * Second)).1).
Proof.
  apply (UpdateTTL_keeps_minimum newStorage "abc" (30 * Second)).
  apply map_Forall_empty.
Defined.

Lemma timer_callback_expire_at_least_10_witness :
  ∃ cmds,
    sent (mkWorld ∅
            [("EXPIRE"%string, [ArgString "sess:a"; ArgInt 30]);
             ("EXPIRE"%string, [ArgString "sess:b"; ArgInt 40])]
            [RedisError "i/o timeout"]) = sent emptyWorld ++ cmds ∧
    Forall (λ c, ∃ k v, c = ("EXPIRE"%string,
                             [ArgString (prefix flakyStorage +:+ k); ArgInt v]) ∧
                        k ≠ EmptyString ∧ 10 <= v) cmds.
Proof.
  apply (timer_callback_expire_at_least_10 [] flakyStorage emptyWorld
           (mkStorageRedis (mkFlakyRedis emptyRedis ["sess:b"%string]) "sess:" ∅)).
  - apply map_Forall_to_list. vm_compute.
    repeat constructor; discriminate.
  - vm_compute. reflexivity.
Defined.

Lemma SetSession_seconds_edges_witness :
  sent (SetSession newStorage emptyWorld "abc" None 999999999).1.2 =
    sent emptyWorld ++ [("SETEX"%string,
                         [ArgString (sessionIdToRedisKey newStorage "abc"); ArgInt 0;
                          ArgBytes (Marshal None).1])] ∧
  ∃ seconds, 1 <= seconds ∧
    sent (SetSession newStorage emptyWorld "abc" None (60 * Second)).1.2 =
      sent emptyWorld ++ [("SETEX"%string,
                           [ArgString (sessionIdToRedisKey newStorage "abc"); ArgInt seconds;
                            ArgBytes (Marshal None).1])].
Proof.
  split.
  - apply (proj1 (SetSession_seconds_edges newStorage emptyWorld "abc" None 999999999
                    eq_refl)).
    vm_compute. reflexivity.
  - apply (proj2 (SetSession_seconds_edges newStorage emptyWorld "abc" None (60 * Second)
                    eq_refl)).
    vm_compute. discriminate.
Defined.

Lemma SetSession_effects_witness :
  sent (SetSession newStorage emptyWorld "abc" (Some sampleMap) (60 * Second)).1.2 =
    sent emptyWorld ++
      [("SETEX"%string,
        [ArgString (sessionIdToRedisKey newStorage "abc"); ArgInt (ttlSeconds (60 * Second));
         ArgBytes (Marshal (Some sampleMap)).1])] ∧
  (SetSession newStorage emptyWorld "abc" (Some sampleMap) (60 * Second)).2 =
    (Do (redis newStorage) "SETEX"
       [ArgString (sessionIdToRedisKey newStorage "abc"); ArgInt (ttlSeconds (60 * Second));
        ArgBytes (Marshal (Some sampleMap)).1]).2 ∧
  redis (SetSession newStorage emptyWorld "abc" (Some sampleMap) (60 * Second)).1.1 =
    (Do (redis newStorage) "SETEX"
       [ArgString (sessionIdToRedisKey newStorage "abc"); ArgInt (ttlSeconds (60 * Second));
        ArgBytes (Marshal (Some sampleMap)).1]).1.1.
Proof.
  apply (SetSession_effects newStorage emptyWorld "abc" (Some sampleMap) (60 * Second)).
  reflexivity.
Defined.
